(** * HOF.js: the inventory examples, embedded over an explicit object heap

    The script builds one array of item objects ([inventory]) and derives
    values from it with a [for] loop and with the array methods [.map],
    [.filter], [.find], [.findIndex], [.some], [.every] and [.reduce].

    JavaScript objects and arrays are references into a shared store, so the
    embedding threads a heap through every operation: an array holds the
    locations of its elements, [.filter] and [.find] hand back the very
    locations they were given, and [.map] with an object literal allocates.
    Numbers are the integers the item records hold ([power: 10], [+ 5]).
    The language keeps them as binary64 values, so [+] is modelled by
    [number_add]: the exact integer sum rounded to 53 significant bits, ties
    to even.  A sum of magnitude up to 2^53 is exact; 2^53 + 5 is 2^53 + 4.
    The model covers the finite range, sums of magnitude below 2^1024. *)

From Stdlib Require Import ZArith Lia DecimalString.
From stdpp Require Import base option list strings.

(** ** Items, cells and the heap *)

Record Item := mkItem { name : string; power : Z; broken : bool }.

Abbreviation loc := nat (only parsing).

Inductive cell :=
  | Obj (it : Item)
  | Arr (elems : list loc).

Abbreviation heap := (list cell) (only parsing).

(** ** Numbers

    An integer of magnitude above 2^53 keeps its 53 leading bits: with [e]
    the number of bits dropped, the remainder below [2^e] is rounded to the
    nearest multiple of [2^e], a tie going to the even 53-bit significand. *)

Definition binary64_round (z : Z) : Z :=
  let a := Z.abs z in
  if (a <=? 2 ^ 53)%Z then z
  else
    let e := (Z.log2 a - 52)%Z in
    let q := (a / 2 ^ e)%Z in
    let r := (a mod 2 ^ e)%Z in
    let half := (2 ^ (e - 1))%Z in
    let q' :=
      if (r <? half)%Z then q
      else if (half <? r)%Z then (q + 1)%Z
      else if Z.even q then q else (q + 1)%Z in
    (Z.sgn z * (q' * 2 ^ e))%Z.

(** [x + y] on two integer-valued numbers. *)
Definition number_add (x y : Z) : Z := binary64_round (x + y).

(** ** Outcomes of running a piece of script *)

Inductive result (A : Type) :=
  | Ok (a : A) (h : heap)
  | TypeError
  | OutOfFuel.
Arguments Ok {A} a h.
Arguments TypeError {A}.
Arguments OutOfFuel {A}.

Definition M (A : Type) : Type := heap -> result A.

Definition ret {A} (a : A) : M A := fun h => Ok a h.

Definition bind {A B} (m : M A) (k : A -> M B) : M B :=
  fun h =>
    match m h with
    | Ok a h' => k a h'
    | TypeError => TypeError
    | OutOfFuel => OutOfFuel
    end.

Definition throw {A} : M A := fun _ => TypeError.
Definition out_of_fuel {A} : M A := fun _ => OutOfFuel.

Notation "x <- m ;; k" := (bind m (fun x => k))
  (at level 100, m at next level, right associativity).
Notation "m ;;; k" := (bind m (fun _ => k))
  (at level 100, right associativity).

(** ** Primitive steps of the language *)

(** An object literal [{ name: n, power: p, broken: b }]. *)
Definition new_object (it : Item) : M loc :=
  fun h => Ok (length h) (h ++ [Obj it]).

(** An array literal, or the fresh array a built-in returns. *)
Definition new_array (elems : list loc) : M loc :=
  fun h => Ok (length h) (h ++ [Arr elems]).

(** The record behind an object reference. *)
Definition get_item (o : loc) : M Item :=
  fun h =>
    match h !! o with
    | Some (Obj it) => Ok it h
    | _ => TypeError
    end.

(** [o.name], [o.power], [o.broken]. *)
Definition prop {A} (f : Item -> A) (o : loc) : M A :=
  it <- get_item o ;; ret (f it).

(** The element list behind an array reference. *)
Definition elements (a : loc) : M (list loc) :=
  fun h =>
    match h !! a with
    | Some (Arr es) => Ok es h
    | _ => TypeError
    end.

(** [a.length]. *)
Definition array_length (a : loc) : M nat :=
  es <- elements a ;; ret (length es).

(** [a[i]]: the element, or [undefined] ([None]) out of range. *)
Definition array_index (a : loc) (i : nat) : M (option loc) :=
  es <- elements a ;; ret (es !! i).

(** A property read on the value of [a[i]]: reading from [undefined] throws. *)
Definition prop_of {A} (f : Item -> A) (v : option loc) : M A :=
  match v with
  | Some o => prop f o
  | None => throw
  end.

(** [a.push(v)]: the array cell is updated in place. *)
Definition array_push (a : loc) (v : loc) : M unit :=
  fun h =>
    match h !! a with
    | Some (Arr es) => Ok tt (<[a := Arr (es ++ [v])]> h)
    | _ => TypeError
    end.

(** [{ ...item, power: p }]: every property of [item] is copied into a fresh
    record, then [power] is overwritten. *)
Definition set_power (it : Item) (p : Z) : Item :=
  match it with
  | mkItem n _ b => mkItem n p b
  end.

(** ** The array methods the script calls

    Each method reads the element list of its array once and hands the
    references to the callback from left to right, one per call, threading
    the heap through the calls.  [.find], [.findIndex], [.some] and
    [.every] stop at the first element that decides the answer.  The
    callbacks of this script read and allocate; none writes to the array it
    is run over. *)

Fixpoint map_elems (cb : loc -> M loc) (es : list loc) : M (list loc) :=
  match es with
  | [] => ret []
  | e :: es' => r <- cb e ;; rs <- map_elems cb es' ;; ret (r :: rs)
  end.

Definition array_map (cb : loc -> M loc) (a : loc) : M loc :=
  es <- elements a ;; rs <- map_elems cb es ;; new_array rs.

Fixpoint filter_elems (cb : loc -> M bool) (es : list loc) : M (list loc) :=
  match es with
  | [] => ret []
  | e :: es' =>
      keep <- cb e ;;
      rs <- filter_elems cb es' ;;
      ret (if keep then e :: rs else rs)
  end.

Definition array_filter (cb : loc -> M bool) (a : loc) : M loc :=
  es <- elements a ;; rs <- filter_elems cb es ;; new_array rs.

Fixpoint find_elems (cb : loc -> M bool) (es : list loc) : M (option loc) :=
  match es with
  | [] => ret None
  | e :: es' => hit <- cb e ;; if hit then ret (Some e) else find_elems cb es'
  end.

(** [a.find(cb)]: the first element that passes, or [undefined] ([None]). *)
Definition array_find (cb : loc -> M bool) (a : loc) : M (option loc) :=
  es <- elements a ;; find_elems cb es.

Fixpoint findIndex_elems (cb : loc -> M bool) (es : list loc) (k : Z) : M Z :=
  match es with
  | [] => ret (-1)%Z
  | e :: es' =>
      hit <- cb e ;; if hit then ret k else findIndex_elems cb es' (k + 1)%Z
  end.

(** [a.findIndex(cb)]: the index of the first element that passes, or [-1]. *)
Definition array_findIndex (cb : loc -> M bool) (a : loc) : M Z :=
  es <- elements a ;; findIndex_elems cb es 0%Z.

Fixpoint some_elems (cb : loc -> M bool) (es : list loc) : M bool :=
  match es with
  | [] => ret false
  | e :: es' => hit <- cb e ;; if hit then ret true else some_elems cb es'
  end.

Definition array_some (cb : loc -> M bool) (a : loc) : M bool :=
  es <- elements a ;; some_elems cb es.

Fixpoint every_elems (cb : loc -> M bool) (es : list loc) : M bool :=
  match es with
  | [] => ret true
  | e :: es' => ok <- cb e ;; if ok then every_elems cb es' else ret false
  end.

Definition array_every (cb : loc -> M bool) (a : loc) : M bool :=
  es <- elements a ;; every_elems cb es.

Fixpoint reduce_elems (cb : Z -> loc -> M Z) (acc : Z) (es : list loc) : M Z :=
  match es with
  | [] => ret acc
  | e :: es' => acc' <- cb acc e ;; reduce_elems cb acc' es'
  end.

(** [a.reduce(cb, init)]. *)
Definition array_reduce (cb : Z -> loc -> M Z) (init : Z) (a : loc) : M Z :=
  es <- elements a ;; reduce_elems cb init es.

(** ** The script *)

(** [let inventory = [ {Sword..}, {Shield..}, {Bow..}, {Axe..} ]]. *)
Definition inventory : M loc :=
  sword <- new_object (mkItem "Sword" 10 false) ;;
  shield <- new_object (mkItem "Shield" 5 false) ;;
  bow <- new_object (mkItem "Bow" 8 true) ;;
  axe <- new_object (mkItem "Axe" 12 false) ;;
  new_array [sword; shield; bow; axe].

(** The body of the [for] loop: one rebuilt record pushed per index. *)
Definition upgradedInventoryLoop_body (inv out : loc) (i : nat) : M unit :=
  e1 <- array_index inv i ;; n <- prop_of name e1 ;;
  e2 <- array_index inv i ;; p <- prop_of power e2 ;;
  e3 <- array_index inv i ;; b <- prop_of broken e3 ;;
  o <- new_object (mkItem n (number_add p 5) b) ;;
  array_push out o.

(** [for (let i = 0; i < inventory.length; i++) { ... }], the length being
    read again before every round. *)
Fixpoint upgradedInventoryLoop_for (fuel : nat) (inv out : loc) (i : nat)
  : M unit :=
  match fuel with
  | O => out_of_fuel
  | S fuel' =>
      len <- array_length inv ;;
      if (i <? len)%nat
      then upgradedInventoryLoop_body inv out i ;;;
           upgradedInventoryLoop_for fuel' inv out (S i)
      else ret tt
  end.

Definition upgradedInventoryLoop (fuel : nat) (inv : loc) : M loc :=
  out <- new_array [] ;;
  upgradedInventoryLoop_for fuel inv out 0 ;;;
  ret out.

(** [inventory.map(item => { return { name: item.name, power: item.power + 5,
    broken: item.broken }; })]. *)
Definition upgradedInventoryMap (inv : loc) : M loc :=
  array_map
    (fun item =>
       n <- prop name item ;;
       p <- prop power item ;;
       b <- prop broken item ;;
       new_object (mkItem n (number_add p 5) b))
    inv.

(** [inventory.map(item => ({ ...item, power: item.power + 5 }))]. *)
Definition upgradedInventoryConcise (inv : loc) : M loc :=
  array_map
    (fun item =>
       copy <- get_item item ;;
       p <- prop power item ;;
       new_object (set_power copy (number_add p 5)))
    inv.

(** [inventory.filter(item => item.broken === false)]. *)
Definition usableInventory (inv : loc) : M loc :=
  array_filter (fun item => b <- prop broken item ;; ret (Bool.eqb b false)) inv.

(** [inventory.filter(item => !item.broken)]. *)
Definition usableInventoryAlt (inv : loc) : M loc :=
  array_filter (fun item => b <- prop broken item ;; ret (negb b)) inv.

(** [inputInventory.map(item => ({ ...item, power: item.power + 5 }))
                   .filter(item => !item.broken)]. *)
Definition upgradeAndFilterInventory (inputInventory : loc) : M loc :=
  upgraded <-
    array_map
      (fun item =>
         copy <- get_item item ;;
         p <- prop power item ;;
         new_object (set_power copy (number_add p 5)))
      inputInventory ;;
  array_filter (fun item => b <- prop broken item ;; ret (negb b)) upgraded.

(** [inventory.find(item => item.power > 10)]. *)
Definition powerfulItem (inv : loc) : M (option loc) :=
  array_find (fun item => p <- prop power item ;; ret (10 <? p)%Z) inv.

(** [inventory.findIndex(item => item.broken)]. *)
Definition brokenItemIndex (inv : loc) : M Z :=
  array_findIndex (fun item => prop broken item) inv.

(** [inventory.some(item => item.broken)]. *)
Definition hasBrokenItems (inv : loc) : M bool :=
  array_some (fun item => prop broken item) inv.

(** [inventory.every(item => item.power > 5)]. *)
Definition allPowerful (inv : loc) : M bool :=
  array_every (fun item => p <- prop power item ;; ret (5 <? p)%Z) inv.

(** [inventory.reduce((sum, item) => sum + item.power, 0)]. *)
Definition totalPower (inv : loc) : M Z :=
  array_reduce
    (fun sum item => p <- prop power item ;; ret (number_add sum p)) 0%Z inv.

(** ** Reading values back out of a heap *)

Definition read_item (h : heap) (o : loc) : option Item :=
  match h !! o with
  | Some (Obj it) => Some it
  | _ => None
  end.

Definition read_elems (h : heap) (a : loc) : option (list loc) :=
  match h !! a with
  | Some (Arr es) => Some es
  | _ => None
  end.

(** The sequence of records an array reference stands for; [None] when the
    reference or one of its elements is not what it should be. *)
Definition read_items (h : heap) (a : loc) : option (list Item) :=
  match read_elems h a with
  | Some es => mapM (read_item h) es
  | None => None
  end.

(** The heap and the reference the [inventory] literal leaves behind when the
    script starts from an empty store. *)
Definition inventory_items : list Item :=
  [ mkItem "Sword" 10 false; mkItem "Shield" 5 false;
    mkItem "Bow" 8 true; mkItem "Axe" 12 false ].

Definition inventory_heap : heap :=
  match inventory [] with
  | Ok _ h => h
  | _ => []
  end.

Definition inventory_ref : loc :=
  match inventory [] with
  | Ok a _ => a
  | _ => 0
  end.

(** ** The transformer contract, in the words of the specification

    These are the operations of the specification on plain sequences of
    records, with their [delta] and [threshold] parameters; the script is
    compared against them below. *)
Module Contract.

Definition upgrade (items : list Item) (delta : Z) : list Item :=
  List.map (fun it => mkItem (name it) (power it + delta) (broken it)) items.

Definition filterUsable (items : list Item) : list Item :=
  List.filter (fun it => Bool.eqb (broken it) false) items.

Definition upgradeAndFilter (items : list Item) (delta : Z) : list Item :=
  filterUsable (upgrade items delta).

Definition findFirstAbove (items : list Item) (threshold : Z) : option Item :=
  List.find (fun it => (threshold <? power it)%Z) items.

Definition allAbove (items : list Item) (threshold : Z) : bool :=
  List.forallb (fun it => (threshold <? power it)%Z) items.

End Contract.

(** ** Predicates used in the statements *)

(** [es] are references to the records [S], one by one, in heap [h]. *)
Definition items_at (h : heap) (es : list loc) (S : list Item) : Prop :=
  Forall2 (fun o it => read_item h o = Some it) es S.

(** [i] is the position of the first element of [l] that passes [p]. *)
Definition first_at {A} (p : A -> bool) (l : list A) (i : nat) : Prop :=
  (exists x, l !! i = Some x /\ p x = true) /\
  (forall j y, (j < i)%nat -> l !! j = Some y -> p y = false).

(** [it'] is [it] with [d] added to its power and nothing else changed. *)
Definition upgraded_by (d : Z) (it it' : Item) : Prop :=
  name it' = name it /\ broken it' = broken it /\
  power it' = (power it + d)%Z.

(** What a run of one of the upgrade expressions must look like on an
    inventory that reads as [S] in [h]: a fresh array of fresh records, the
    records of [S] upgraded by [d] in order, with every cell of [h] left as
    it was. *)
Definition upgrade_outcome (d : Z) (h : heap) (inv : loc) (S : list Item)
    (r : result loc) : Prop :=
  exists out h' es' R,
    r = Ok out h' /\
    read_elems h' out = Some es' /\ read_items h' out = Some R /\
    R = Contract.upgrade S d /\
    length R = length S /\ Forall2 (upgraded_by d) S R /\
    (length h <= out)%nat /\ Forall (fun o => (length h <= o)%nat) es' /\
    h `prefix_of` h' /\ read_items h' inv = Some S.

(** What the upgrade callbacks make of a record: 5 is added to its power by
    the language's addition, the name and the flag are copied. *)
Definition upgraded_item (it : Item) : Item :=
  mkItem (name it) (number_add (power it) 5) (broken it).

Definition upgraded_items (S : list Item) : list Item :=
  List.map upgraded_item S.

(** The powers to which 5 is added exactly: the sum stays within 2^53. *)
Definition safe_to_upgrade (S : list Item) : Prop :=
  Forall (fun it => (- 2 ^ 53 <= power it <= 2 ^ 53 - 5)%Z) S.

(** What a run of one of the upgrade expressions looks like at every
    magnitude: a fresh array of fresh records, one per record of [S] and in
    the same order, each with the name and the flag of its original and
    with the rounded sum of its power and 5; every cell of [h] is left as
    it was. *)
Definition upgrade_run (h : heap) (inv : loc) (S : list Item)
    (r : result loc) : Prop :=
  exists out h' es' R,
    r = Ok out h' /\
    read_elems h' out = Some es' /\ read_items h' out = Some R /\
    R = upgraded_items S /\
    length R = length S /\
    Forall2 (fun it it' =>
               name it' = name it /\ broken it' = broken it /\
               power it' = number_add (power it) 5) S R /\
    (length h <= out)%nat /\ Forall (fun o => (length h <= o)%nat) es' /\
    h `prefix_of` h' /\ read_items h' inv = Some S.

(** The total as the reduction computes it: a left fold of the language's
    addition from 0. *)
Definition rounded_total (S : list Item) : Z :=
  List.fold_left (fun sum it => number_add sum (power it)) S 0%Z.

(** Every running sum of the reduction, started at [acc], stays within
    2^53, so that every addition it makes is exact. *)
Fixpoint safe_sums_from (acc : Z) (S : list Item) : Prop :=
  match S with
  | [] => True
  | it :: S' =>
      (- 2 ^ 53 <= acc + power it <= 2 ^ 53)%Z /\
      safe_sums_from (acc + power it) S'
  end.

Definition safe_to_total (S : list Item) : Prop := safe_sums_from 0 S.

(** What a run of one of the filter expressions must look like: a fresh
    array holding, in order, exactly the references of the input whose
    record is not broken; no cell of [h] is changed. *)
Definition filter_outcome (h : heap) (inv : loc) (S : list Item)
    (r : result loc) : Prop :=
  exists out h' es es' R,
    r = Ok out h' /\
    read_elems h inv = Some es /\
    read_elems h' out = Some es' /\ read_items h' out = Some R /\
    es' `sublist_of` es /\ R `sublist_of` S /\
    R = List.filter (fun it => negb (broken it)) S /\
    (forall it, it ∈ R <-> it ∈ S /\ broken it = false) /\
    (length R <= length S)%nat /\
    (length h <= out)%nat /\
    h `prefix_of` h' /\ read_items h' inv = Some S.

(** A callback that allocates one record, computed by [f] from the record
    behind the reference it is handed. *)
Definition cb_builds (f : Item -> Item) (cb : loc -> M loc) : Prop :=
  forall h o it,
    read_item h o = Some it -> cb o h = Ok (length h) (h ++ [Obj (f it)]).

(** A callback that only reads: it answers [p] of the record behind the
    reference and leaves the heap alone. *)
Definition cb_tests (p : Item -> bool) (cb : loc -> M bool) : Prop :=
  forall h o it, read_item h o = Some it -> cb o h = Ok (p it) h.

(** The reducer of [totalPower]: it adds [g] of the record to the sum. *)
Definition cb_adds (g : Item -> Z) (cb : Z -> loc -> M Z) : Prop :=
  forall h acc o it,
    read_item h o = Some it -> cb acc o h = Ok (number_add acc (g it)) h.

(** The sum of the power fields of a sequence of records. *)
Definition sum_power (S : list Item) : Z :=
  List.fold_right (fun it acc => (power it + acc)%Z) 0%Z S.

(** The heap of the [for] loop after [i] rounds, started in [h] on an
    inventory that reads as [S]: the output array sits right after [h] and
    the rebuilt records follow it in the order they were pushed. *)
Definition heap_after_rounds (h : heap) (S : list Item) (i : nat) : heap :=
  h ++ Arr (seq (1 + length h) i) :: (Obj <$> upgraded_items (take i S)).

(** A run that hands back a value: it neither throws nor runs out of fuel. *)
Definition returns {A} (r : result A) : Prop := exists a h', r = Ok a h'.

(** What a run of a find-first-above-[t] must look like on an inventory that
    reads as [S] in [h]: the reference stored at the first position whose
    record has power above [t], or [undefined] when there is no such
    record; the heap is left as it was. *)
Definition find_outcome (t : Z) (h : heap) (inv : loc) (S : list Item)
    (r : result (option loc)) : Prop :=
  (exists i o it es,
      r = Ok (Some o) h /\
      read_elems h inv = Some es /\ es !! i = Some o /\
      read_item h o = Some it /\ S !! i = Some it /\ (t < power it)%Z /\
      first_at (fun x => (t <? power x)%Z) S i) \/
  (r = Ok None h /\ Forall (fun x => (power x <= t)%Z) S).

(** What a run of an all-above-[t] must look like: a boolean that is [true]
    exactly when every record has power above [t]; the heap is left as it
    was. *)
Definition every_outcome (t : Z) (h : heap) (S : list Item)
    (r : result bool) : Prop :=
  exists b, r = Ok b h /\ (b = true <-> Forall (fun x => (t < power x)%Z) S).

(** A small heap with three arrays over the same three records: [3] reads
    as Sword, Shield; [4] as Bow; [5] as the concatenation of the two. *)
Definition concat_heap : heap :=
  [ Obj (mkItem "Sword" 10 false); Obj (mkItem "Shield" 5 false);
    Obj (mkItem "Bow" 8 true); Arr [0; 1]; Arr [2]; Arr [0; 1; 2] ]%nat.

(** ** The array of weapon names

    [weapons] is the only reference to its array, so the state is the
    content of that array. *)

(** [let weapons = ["Sword", "Shield", "Bow", "Axe"]]. *)
Definition weapons : list string := ["Sword"; "Shield"; "Bow"; "Axe"].

(** [a.push(x)]: [x] goes to the end; the call returns the new length. *)
Definition strings_push (x : string) (a : list string) : nat * list string :=
  (length (a ++ [x]), a ++ [x]).

(** [a.pop()]: the last element is taken off and returned; on an empty array
    the call returns [undefined] ([None]) and the array stays empty. *)
Definition strings_pop (a : list string) : option string * list string :=
  (last a, removelast a).

(** [weapons.push("Dagger"); const droppedItem = weapons.pop();], from any
    content of the array: the value of [droppedItem] and the content of
    [weapons] afterwards. *)
Definition droppedItem (a : list string) : option string * list string :=
  let '(_, a1) := strings_push "Dagger" a in
  strings_pop a1.

(** ** The console and [.forEach] *)

(** [console.log(line)], the console being the list of lines printed so
    far. *)
Definition console_log (line : string) (out : list string)
  : M (list string) :=
  ret (out ++ [line]).

(** A number inside a template literal.  For an integer of magnitude up to
    2^53 the runtime prints its decimal numeral, which is what this gives
    and all that the statements below rely on; larger values are printed
    from their shortest round-trip digits, and in exponent form from
    1e21, which this does not follow. *)
Definition number_to_string (z : Z) : string :=
  NilZero.string_of_int (Z.to_int z).

Fixpoint forEach_elems (cb : loc -> list string -> M (list string))
    (es : list loc) (out : list string) : M (list string) :=
  match es with
  | [] => ret out
  | e :: es' => out' <- cb e out ;; forEach_elems cb es' out'
  end.

(** [a.forEach(cb)]: the callback is run on every element, left to right;
    nothing is returned but what the callback did to the console. *)
Definition array_forEach (cb : loc -> list string -> M (list string))
    (a : loc) (out : list string) : M (list string) :=
  es <- elements a ;; forEach_elems cb es out.

(** [inventory.forEach(item => { console.log(`${item.name}: Power
    ${item.power}, ${item.broken ? "Broken" : "Not broken"}`); })]. *)
Definition logEachItem (inv : loc) (out : list string) : M (list string) :=
  array_forEach
    (fun item out =>
       n <- prop name item ;;
       p <- prop power item ;;
       b <- prop broken item ;;
       console_log
         (n +:+ ": Power " +:+ number_to_string p +:+ ", "
            +:+ (if b then "Broken" else "Not broken"))
         out)
    inv out.

(** The line the callback of [logEachItem] prints for a record. *)
Definition item_line (it : Item) : string :=
  name it +:+ ": Power " +:+ number_to_string (power it) +:+ ", "
    +:+ (if broken it then "Broken" else "Not broken").

(** ** Running one expression on the result of another *)

(** The records of [S] that are not broken. *)
Definition unbroken (S : list Item) : list Item :=
  List.filter (fun it => negb (broken it)) S.

(** A small heap whose first record has power 2^53, where the language's
    addition starts to round: [2] reads as the Sword, [3] as two Rings of
    power 1, [4] as the concatenation of the two. *)
Definition rounding_heap : heap :=
  [ Obj (mkItem "Sword" (2 ^ 53) false); Obj (mkItem "Ring" 1 false);
    Arr [0]; Arr [1; 1]; Arr [0; 1; 1] ]%nat.

(** ** Basic facts about the heap *)

Section heap_facts.
Implicit Types (h k : heap) (o a : loc) (it : Item) (es : list loc)
  (S R : list Item).

Lemma read_item_Some h o it :
  read_item h o = Some it <-> h !! o = Some (Obj it).
Proof.
  unfold read_item. destruct (h !! o) as [[|]|]; split; congruence.
Qed.

Lemma read_elems_Some h a es :
  read_elems h a = Some es <-> h !! a = Some (Arr es).
Proof.
  unfold read_elems. destruct (h !! a) as [[|]|]; split; congruence.
Qed.

Lemma read_items_Some h a S :
  read_items h a = Some S <->
  exists es, read_elems h a = Some es /\ items_at h es S.
Proof.
  unfold read_items, items_at. split.
  - destruct (read_elems h a) as [es|]; [|discriminate].
    intros Hm. exists es. split; [reflexivity|]. by apply mapM_Some_1.
  - intros (es & -> & HF). by apply mapM_Some_2.
Qed.

Lemma read_item_mono h h' o it :
  h `prefix_of` h' -> read_item h o = Some it -> read_item h' o = Some it.
Proof.
  rewrite !read_item_Some. intros Hp Hl. by eapply prefix_lookup_Some.
Qed.

Lemma read_elems_mono h h' a es :
  h `prefix_of` h' -> read_elems h a = Some es -> read_elems h' a = Some es.
Proof.
  rewrite !read_elems_Some. intros Hp Hl. by eapply prefix_lookup_Some.
Qed.

Lemma items_at_mono h h' es S :
  h `prefix_of` h' -> items_at h es S -> items_at h' es S.
Proof.
  intros Hp HF. unfold items_at. eapply Forall2_impl; [exact HF|].
  intros o it. by apply read_item_mono.
Qed.

Lemma read_items_mono h h' a S :
  h `prefix_of` h' -> read_items h a = Some S -> read_items h' a = Some S.
Proof.
  rewrite !read_items_Some. intros Hp (es & He & Hi).
  exists es. eauto using read_elems_mono, items_at_mono.
Qed.

Lemma items_at_length h es S : items_at h es S -> length es = length S.
Proof. apply Forall2_length. Qed.

(** A block of freshly allocated records is read back in allocation order. *)
Lemma items_at_block h R k :
  items_at (h ++ (Obj <$> R) ++ k) (seq (length h) (length R)) R.
Proof.
  revert h. induction R as [|r R IH]; intros h; simpl.
  - constructor.
  - constructor.
    + apply read_item_Some. by apply list_lookup_middle.
    + specialize (IH (h ++ [Obj r])).
      rewrite length_app, <- app_assoc in IH. simpl in IH.
      by replace (length h + 1)%nat with (S (length h)) in IH by lia.
Qed.

Lemma block_fresh n m : Forall (fun o => (n <= o)%nat) (seq n m).
Proof.
  apply Forall_forall. intros o Ho. apply elem_of_seq in Ho. lia.
Qed.
End heap_facts.

(** ** The language's addition on integers *)

Lemma binary64_round_exact z :
  (- 2 ^ 53 <= z <= 2 ^ 53)%Z -> binary64_round z = z.
Proof.
  intros Hz. unfold binary64_round.
  destruct (Z.leb_spec (Z.abs z) (2 ^ 53)); [reflexivity | lia].
Qed.

(** The rounded magnitude of an integer above 2^53 is still at least 2^53. *)
Lemma binary64_round_magnitude a :
  (2 ^ 53 < a)%Z ->
  let e := (Z.log2 a - 52)%Z in
  let q := (a / 2 ^ e)%Z in
  let r := (a mod 2 ^ e)%Z in
  let half := (2 ^ (e - 1))%Z in
  (2 ^ 53 <= (if (r <? half)%Z then q
              else if (half <? r)%Z then q + 1
              else if Z.even q then q else q + 1) * 2 ^ e)%Z.
Proof.
  intros Ha e q r half.
  assert (Hlog : (53 <= Z.log2 a)%Z) by (apply Z.log2_le_pow2; lia).
  assert (He : (1 <= e)%Z) by (unfold e; lia).
  assert (Hpe : (0 < 2 ^ e)%Z) by (apply Z.pow_pos_nonneg; lia).
  assert (Hq : (2 ^ 52 <= q)%Z).
  { unfold q. apply Z.div_le_lower_bound; [lia|].
    replace (2 ^ e * 2 ^ 52)%Z with (2 ^ Z.log2 a)%Z.
    - apply Z.log2_spec. lia.
    - rewrite <- Z.pow_add_r by lia. f_equal. unfold e. lia. }
  assert (Hq' : (q <= (if (r <? half)%Z then q
                       else if (half <? r)%Z then q + 1
                       else if Z.even q then q else q + 1))%Z).
  { destruct (r <? half)%Z; [lia|]. destruct (half <? r)%Z; [lia|].
    destruct (Z.even q); lia. }
  assert (H2 : (2 <= 2 ^ e)%Z).
  { change 2%Z with (2 ^ 1)%Z at 1. apply Z.pow_le_mono_r; lia. }
  nia.
Qed.

Lemma binary64_round_above z :
  (2 ^ 53 < z)%Z -> (2 ^ 53 <= binary64_round z)%Z.
Proof.
  intros Hz. unfold binary64_round.
  destruct (Z.leb_spec (Z.abs z) (2 ^ 53)); [lia|].
  rewrite Z.sgn_pos, Z.mul_1_l by lia.
  rewrite Z.abs_eq by lia. apply binary64_round_magnitude. lia.
Qed.

Lemma binary64_round_below z :
  (z < - 2 ^ 53)%Z -> (binary64_round z <= - 2 ^ 53)%Z.
Proof.
  intros Hz. unfold binary64_round.
  destruct (Z.leb_spec (Z.abs z) (2 ^ 53)); [lia|].
  rewrite Z.sgn_neg by lia.
  pose proof (binary64_round_magnitude (Z.abs z) ltac:(lia)) as Hm.
  simpl in Hm. lia.
Qed.

Lemma number_add_exact x y :
  (- 2 ^ 53 <= x + y <= 2 ^ 53)%Z -> number_add x y = (x + y)%Z.
Proof. apply binary64_round_exact. Qed.

(** Rounding never carries a sum across a bound that is itself within
    2^53. *)
Lemma number_add_ge x y c :
  (- 2 ^ 53 <= c <= 2 ^ 53)%Z -> (c <= x + y)%Z -> (c <= number_add x y)%Z.
Proof.
  intros Hc Hle. unfold number_add.
  destruct (Z_le_gt_dec (x + y) (2 ^ 53)) as [Hs|Hl].
  - rewrite binary64_round_exact by lia. exact Hle.
  - pose proof (binary64_round_above (x + y) ltac:(lia)). lia.
Qed.

Lemma number_add_le x y c :
  (- 2 ^ 53 <= c <= 2 ^ 53)%Z -> (x + y <= c)%Z -> (number_add x y <= c)%Z.
Proof.
  intros Hc Hle. unfold number_add.
  destruct (Z_le_gt_dec (- 2 ^ 53) (x + y)) as [Hs|Hl].
  - rewrite binary64_round_exact by lia. exact Hle.
  - pose proof (binary64_round_below (x + y) ltac:(lia)). lia.
Qed.

Example number_add_rounds :
  number_add (2 ^ 53) 5 = (2 ^ 53 + 4)%Z /\
  number_add (2 ^ 53) 1 = (2 ^ 53)%Z /\
  number_add (2 ^ 53) 3 = (2 ^ 53 + 4)%Z /\
  number_add (- 2 ^ 53) (-1) = (- 2 ^ 53)%Z /\
  number_add (2 ^ 53 - 5) 5 = (2 ^ 53)%Z /\
  number_add 10 5 = 15%Z.
Proof. repeat split. Qed.

(** ** Running the monad *)

Lemma bind_Ok {A B} (m : M A) (k : A -> M B) h a h' :
  m h = Ok a h' -> bind m k h = k a h'.
Proof. unfold bind. by intros ->. Qed.

Lemma get_item_Ok h o it : read_item h o = Some it -> get_item o h = Ok it h.
Proof. rewrite read_item_Some. unfold get_item. by intros ->. Qed.

Lemma prop_Ok {A} (f : Item -> A) h o it :
  read_item h o = Some it -> prop f o h = Ok (f it) h.
Proof. intros Hr. unfold prop. by rewrite (bind_Ok _ _ _ _ _ (get_item_Ok _ _ _ Hr)). Qed.

Lemma elements_Ok h a es : read_elems h a = Some es -> elements a h = Ok es h.
Proof. rewrite read_elems_Some. unfold elements. by intros ->. Qed.

Lemma array_length_Ok h a es :
  read_elems h a = Some es -> array_length a h = Ok (length es) h.
Proof.
  intros Hr. unfold array_length.
  by rewrite (bind_Ok _ _ _ _ _ (elements_Ok _ _ _ Hr)).
Qed.

Lemma array_index_Ok h a es i :
  read_elems h a = Some es -> array_index a i h = Ok (es !! i) h.
Proof.
  intros Hr. unfold array_index.
  by rewrite (bind_Ok _ _ _ _ _ (elements_Ok _ _ _ Hr)).
Qed.

(** ** The array methods, on callbacks of the three kinds *)

Section array_methods.
Implicit Types (h k : heap) (o a : loc) (it : Item) (es : list loc)
  (S R : list Item).

Lemma map_elems_spec f cb es S h :
  cb_builds f cb -> items_at h es S ->
  forall h', h `prefix_of` h' ->
    map_elems cb es h'
    = Ok (seq (length h') (length S)) (h' ++ (Obj <$> (f <$> S))).
Proof.
  intros Hcb HF. induction HF as [|e it es S He HF IH]; intros h' Hp; simpl.
  - unfold ret. by rewrite app_nil_r.
  - pose proof (read_item_mono _ _ _ _ Hp He) as He'.
    rewrite (bind_Ok _ _ _ _ _ (Hcb _ _ _ He')).
    rewrite (bind_Ok _ _ _ _ _ (IH _ (prefix_app_r _ _ _ Hp))).
    unfold ret. rewrite length_app, <- app_assoc. simpl.
    by replace (length h' + 1)%nat with (Datatypes.S (length h')) by lia.
Qed.

Lemma array_map_spec f cb h a S :
  cb_builds f cb -> read_items h a = Some S ->
  array_map cb a h
  = Ok (length h + length S)%nat
       (h ++ (Obj <$> (f <$> S)) ++ [Arr (seq (length h) (length S))]).
Proof.
  intros Hcb (es & He & Hi)%read_items_Some. unfold array_map.
  rewrite (bind_Ok _ _ _ _ _ (elements_Ok _ _ _ He)).
  rewrite (bind_Ok _ _ _ _ _ (map_elems_spec _ _ _ _ _ Hcb Hi h (reflexivity _))).
  unfold new_array. by rewrite length_app, !length_fmap, <- app_assoc.
Qed.

Lemma filter_elems_spec p cb es S h :
  cb_tests p cb -> items_at h es S ->
  exists es',
    filter_elems cb es h = Ok es' h /\
    items_at h es' (List.filter p S) /\ es' `sublist_of` es.
Proof.
  intros Hcb HF. induction HF as [|e it es S He HF (es' & Hrun & Hi & Hs)]; simpl.
  - exists []. repeat split; constructor.
  - rewrite (bind_Ok _ _ _ _ _ (Hcb _ _ _ He)), (bind_Ok _ _ _ _ _ Hrun).
    unfold ret. destruct (p it).
    + exists (e :: es'). repeat split; [by constructor | by constructor].
    + exists es'. repeat split; [done | by constructor].
Qed.

Lemma find_elems_spec p cb es S h :
  cb_tests p cb -> items_at h es S ->
  (exists i o, find_elems cb es h = Ok (Some o) h /\
               es !! i = Some o /\ first_at p S i) \/
  (find_elems cb es h = Ok None h /\ Forall (fun it => p it = false) S).
Proof.
  intros Hcb HF. induction HF as [|e it es S He HF IH]; simpl.
  - right. split; [done | constructor].
  - rewrite (bind_Ok _ _ _ _ _ (Hcb _ _ _ He)). destruct (p it) eqn:Hp.
    + left. exists 0%nat, e. repeat split; [by exists it | intros; lia].
    + destruct IH as [(i & o & Hrun & Ho & (x & Hx & Hpx) & Hlt) | [Hrun Hall]].
      * left. exists (Datatypes.S i), o. repeat split; [done | done | by exists x |].
        intros [|j] y Hj Hy; simpl in Hy; [congruence|].
        apply (Hlt j); [lia | done].
      * right. split; [done | by constructor].
Qed.

Lemma findIndex_elems_spec p cb es S h :
  cb_tests p cb -> items_at h es S ->
  forall k : Z,
    (exists i, findIndex_elems cb es k h = Ok (k + Z.of_nat i)%Z h /\
               first_at p S i) \/
    (findIndex_elems cb es k h = Ok (-1)%Z h /\
     Forall (fun it => p it = false) S).
Proof.
  intros Hcb HF. induction HF as [|e it es S He HF IH]; intros k; simpl.
  - right. split; [done | constructor].
  - rewrite (bind_Ok _ _ _ _ _ (Hcb _ _ _ He)). destruct (p it) eqn:Hp.
    + left. exists 0%nat. rewrite Z.add_0_r.
      repeat split; [by exists it | intros; lia].
    + destruct (IH (k + 1)%Z) as [(i & Hrun & (x & Hx & Hpx) & Hlt) | [Hrun Hall]].
      * left. exists (Datatypes.S i).
        replace (k + Z.of_nat (Datatypes.S i))%Z with (k + 1 + Z.of_nat i)%Z by lia.
        repeat split; [done | by exists x |].
        intros [|j] y Hj Hy; simpl in Hy; [congruence|].
        apply (Hlt j); [lia | done].
      * right. split; [done | by constructor].
Qed.

Lemma some_elems_spec p cb es S h :
  cb_tests p cb -> items_at h es S ->
  some_elems cb es h = Ok (List.existsb p S) h.
Proof.
  intros Hcb HF. induction HF as [|e it es S He HF IH]; simpl; [done|].
  rewrite (bind_Ok _ _ _ _ _ (Hcb _ _ _ He)). by destruct (p it).
Qed.

Lemma every_elems_spec p cb es S h :
  cb_tests p cb -> items_at h es S ->
  every_elems cb es h = Ok (List.forallb p S) h.
Proof.
  intros Hcb HF. induction HF as [|e it es S He HF IH]; simpl; [done|].
  rewrite (bind_Ok _ _ _ _ _ (Hcb _ _ _ He)). by destruct (p it).
Qed.

Lemma reduce_elems_spec g cb es S h :
  cb_adds g cb -> items_at h es S ->
  forall acc,
    reduce_elems cb acc es h
    = Ok (List.fold_left (fun s it => number_add s (g it)) S acc) h.
Proof.
  intros Hcb HF. induction HF as [|e it es S He HF IH]; intros acc; simpl; [done|].
  by rewrite (bind_Ok _ _ _ _ _ (Hcb _ _ _ _ He)).
Qed.
End array_methods.

(** ** The callbacks of the script *)

Lemma fmap_map {A B} (f : A -> B) (l : list A) : f <$> l = List.map f l.
Proof. induction l as [|x l IH]; [done|]. cbn. by f_equal. Qed.

Lemma set_power_fields it p :
  set_power it p = mkItem (name it) p (broken it).
Proof. by destruct it. Qed.

Lemma rebuild_builds :
  cb_builds upgraded_item
    (fun item =>
       n <- prop name item ;;
       p <- prop power item ;;
       b <- prop broken item ;;
       new_object (mkItem n (number_add p 5) b)).
Proof.
  intros h o it Hr.
  by rewrite !(bind_Ok _ _ _ _ _ (prop_Ok _ _ _ _ Hr)).
Qed.

Lemma spread_builds :
  cb_builds upgraded_item
    (fun item =>
       copy <- get_item item ;;
       p <- prop power item ;;
       new_object (set_power copy (number_add p 5))).
Proof.
  intros h o it Hr.
  rewrite (bind_Ok _ _ _ _ _ (get_item_Ok _ _ _ Hr)).
  rewrite (bind_Ok _ _ _ _ _ (prop_Ok _ _ _ _ Hr)).
  by rewrite set_power_fields.
Qed.

Lemma strict_false_tests :
  cb_tests (fun it => negb (broken it))
    (fun item => b <- prop broken item ;; ret (Bool.eqb b false)).
Proof.
  intros h o it Hr. rewrite (bind_Ok _ _ _ _ _ (prop_Ok _ _ _ _ Hr)).
  unfold ret. by destruct (broken it).
Qed.

Lemma not_broken_tests :
  cb_tests (fun it => negb (broken it))
    (fun item => b <- prop broken item ;; ret (negb b)).
Proof.
  intros h o it Hr. by rewrite (bind_Ok _ _ _ _ _ (prop_Ok _ _ _ _ Hr)).
Qed.

Lemma broken_tests : cb_tests broken (fun item => prop broken item).
Proof. intros h o it Hr. by apply prop_Ok. Qed.

Lemma above_tests (c : Z) :
  cb_tests (fun it => (c <? power it)%Z)
    (fun item => p <- prop power item ;; ret (c <? p)%Z).
Proof.
  intros h o it Hr. by rewrite (bind_Ok _ _ _ _ _ (prop_Ok _ _ _ _ Hr)).
Qed.

Lemma sum_adds :
  cb_adds power
    (fun sum item => p <- prop power item ;; ret (number_add sum p)).
Proof.
  intros h acc o it Hr. by rewrite (bind_Ok _ _ _ _ _ (prop_Ok _ _ _ _ Hr)).
Qed.

(** ** Outcomes of [.map] and [.filter] *)

Section outcomes.
Implicit Types (h : heap) (inv : loc) (it : Item) (S R : list Item).

Lemma upgraded_by_upgrade d S :
  Forall2 (upgraded_by d) S (Contract.upgrade S d).
Proof.
  unfold Contract.upgrade. induction S as [|it S IH]; simpl; constructor; [|done].
  by repeat split.
Qed.

Lemma upgraded_items_fields S :
  Forall2 (fun it it' =>
             name it' = name it /\ broken it' = broken it /\
             power it' = number_add (power it) 5) S (upgraded_items S).
Proof.
  unfold upgraded_items. induction S as [|it S IH]; simpl; constructor; [|done].
  by repeat split.
Qed.

(** On powers to which 5 is added exactly, the records the code builds are
    the records of the contract at delta 5. *)
Lemma upgraded_items_safe S :
  safe_to_upgrade S -> upgraded_items S = Contract.upgrade S 5.
Proof.
  unfold upgraded_items, Contract.upgrade, upgraded_item.
  induction 1 as [|it S Hit _ IH]; simpl; [done|].
  rewrite IH, number_add_exact by lia. done.
Qed.

Lemma safe_to_upgrade_unbroken S :
  safe_to_upgrade S ->
  safe_to_upgrade (List.filter (fun it => negb (broken it)) S).
Proof.
  unfold safe_to_upgrade. induction 1 as [|it S Hit _ IH]; simpl; [done|].
  destruct (broken it); simpl; [done | by constructor].
Qed.

(** A run at every magnitude is a run of the contract at delta 5 on powers
    to which 5 is added exactly. *)
Lemma upgrade_run_safe h inv S r :
  safe_to_upgrade S -> upgrade_run h inv S r -> upgrade_outcome 5 h inv S r.
Proof.
  intros Hsafe (out & h' & es' & R & Hrun & He & HR & -> & Hlen & _ & Hrest).
  exists out, h', es', (Contract.upgrade S 5).
  rewrite (upgraded_items_safe _ Hsafe) in HR, Hlen.
  split; [exact Hrun|]. split; [exact He|]. split; [exact HR|].
  split; [reflexivity|]. split; [exact Hlen|].
  split; [apply upgraded_by_upgrade | exact Hrest].
Qed.

Lemma array_map_outcome cb h inv S :
  cb_builds upgraded_item cb ->
  read_items h inv = Some S ->
  upgrade_run h inv S (array_map cb inv h).
Proof.
  intros Hcb Hr. rewrite (array_map_spec _ _ _ _ _ Hcb Hr), fmap_map.
  fold (upgraded_items S).
  assert (HlenR : length (upgraded_items S) = length S)
    by apply length_map.
  eexists _, _, (seq (length h) (length S)), (upgraded_items S).
  assert (Hes : read_elems
            (h ++ (Obj <$> upgraded_items S) ++ [Arr (seq (length h) (length S))])
            (length h + length S) = Some (seq (length h) (length S))).
  { apply read_elems_Some. rewrite app_assoc. apply list_lookup_middle.
    by rewrite length_app, length_fmap, HlenR. }
  split; [reflexivity|]. split; [exact Hes|]. split.
  { apply read_items_Some. eexists. split; [exact Hes|].
    rewrite <- HlenR. apply items_at_block. }
  split; [reflexivity|].
  split; [exact HlenR|]. split; [apply upgraded_items_fields|].
  split; [lia|]. split; [apply block_fresh|].
  assert (Hp : h `prefix_of`
            h ++ (Obj <$> upgraded_items S) ++ [Arr (seq (length h) (length S))])
    by (by apply prefix_app_r).
  split; [exact Hp|]. by eapply read_items_mono.
Qed.

Lemma List_filter_sublist {A} (p : A -> bool) (l : list A) :
  List.filter p l `sublist_of` l.
Proof.
  induction l as [|x l IH]; simpl; [constructor|].
  destruct (p x); by constructor.
Qed.

Lemma array_filter_outcome cb h inv S :
  cb_tests (fun it => negb (broken it)) cb ->
  read_items h inv = Some S ->
  filter_outcome h inv S (array_filter cb inv h).
Proof.
  intros Hcb Hr. pose proof Hr as (es & He & Hi)%read_items_Some.
  destruct (filter_elems_spec _ _ _ _ _ Hcb Hi) as (es' & Hrun & Hi' & Hsub).
  unfold array_filter.
  rewrite (bind_Ok _ _ _ _ _ (elements_Ok _ _ _ He)), (bind_Ok _ _ _ _ _ Hrun).
  unfold new_array.
  assert (Hp : h `prefix_of` h ++ [Arr es']) by (by apply prefix_app_r).
  assert (Hes : read_elems (h ++ [Arr es']) (length h) = Some es').
  { apply read_elems_Some. by apply list_lookup_middle. }
  exists (length h), (h ++ [Arr es']), es, es',
    (List.filter (fun it => negb (broken it)) S).
  split; [reflexivity|]. split; [exact He|]. split; [exact Hes|]. split.
  { apply read_items_Some. exists es'. split; [exact Hes|].
    by eapply items_at_mono. }
  split; [exact Hsub|]. split; [apply List_filter_sublist|].
  split; [reflexivity|]. split.
  { intros it. rewrite !list_elem_of_In, filter_In, Bool.negb_true_iff. tauto. }
  split; [apply sublist_length, List_filter_sublist|].
  split; [lia|]. split; [exact Hp|]. by eapply read_items_mono.
Qed.
End outcomes.

(** ** The [for] loop *)

Section for_loop.
Implicit Types (h : heap) (inv : loc) (it : Item) (es : list loc)
  (S : list Item).

Lemma heap_after_rounds_prefix h S i : h `prefix_of` heap_after_rounds h S i.
Proof. unfold heap_after_rounds. by apply prefix_app_r. Qed.

Lemma heap_after_rounds_length h S i :
  (i <= length S)%nat ->
  length (heap_after_rounds h S i) = (length h + 1 + i)%nat.
Proof.
  intros Hi. unfold heap_after_rounds, upgraded_items.
  rewrite length_app. simpl.
  rewrite length_fmap, length_map, length_take_le by done. lia.
Qed.

(** One round: the record at index [i] is rebuilt and pushed. *)
Lemma upgradedInventoryLoop_body_spec h inv es S i :
  read_elems h inv = Some es -> items_at h es S -> (i < length S)%nat ->
  upgradedInventoryLoop_body inv (length h) i (heap_after_rounds h S i)
  = Ok tt (heap_after_rounds h S (1 + i)).
Proof.
  intros He Hi Hlt.
  pose proof (heap_after_rounds_prefix h S i) as Hp.
  pose proof (read_elems_mono _ _ _ _ Hp He) as He'.
  destruct (lookup_lt_is_Some_2 es i) as [e Hes];
    [by rewrite (items_at_length _ _ _ Hi)|].
  destruct (Forall2_lookup_l _ _ _ _ _ Hi Hes) as (it & HS & Hit).
  pose proof (read_item_mono _ _ _ _ Hp Hit) as Hit'.
  unfold upgradedInventoryLoop_body.
  rewrite (bind_Ok _ _ _ _ _ (array_index_Ok _ _ _ i He')), Hes. simpl.
  rewrite (bind_Ok _ _ _ _ _ (prop_Ok _ _ _ _ Hit')).
  rewrite (bind_Ok _ _ _ _ _ (array_index_Ok _ _ _ i He')), Hes. simpl.
  rewrite (bind_Ok _ _ _ _ _ (prop_Ok _ _ _ _ Hit')).
  rewrite (bind_Ok _ _ _ _ _ (array_index_Ok _ _ _ i He')), Hes. simpl.
  rewrite (bind_Ok _ _ _ _ _ (prop_Ok _ _ _ _ Hit')).
  unfold bind, new_object, array_push.
  rewrite heap_after_rounds_length by lia.
  unfold heap_after_rounds at 1. rewrite <- app_assoc. simpl.
  rewrite list_lookup_middle by done.
  f_equal. unfold heap_after_rounds.
  rewrite <- app_assoc. simpl.
  replace (length h) with (length h + 0)%nat at 1 by lia.
  rewrite insert_app_r. simpl. do 2 f_equal.
  - change (Arr (seq (1 + length h) i ++ [length h + 1 + i])
            = Arr (seq (1 + length h) (Datatypes.S i)))%nat.
    rewrite seq_S. do 3 f_equal. lia.
  - rewrite (take_S_r _ _ _ HS). unfold upgraded_items.
    by rewrite map_app, fmap_app.
Qed.

Lemma upgradedInventoryLoop_for_spec h inv es S :
  read_elems h inv = Some es -> items_at h es S ->
  forall fuel i,
    (i <= length S)%nat -> (length S - i < fuel)%nat ->
    upgradedInventoryLoop_for fuel inv (length h) i (heap_after_rounds h S i)
    = Ok tt (heap_after_rounds h S (length S)).
Proof.
  intros He Hi. induction fuel as [|fuel IH]; intros i Hle Hfuel; [lia|].
  pose proof (heap_after_rounds_prefix h S i) as Hp.
  pose proof (read_elems_mono _ _ _ _ Hp He) as He'.
  simpl. rewrite (bind_Ok _ _ _ _ _ (array_length_Ok _ _ _ He')).
  rewrite (items_at_length _ _ _ Hi).
  destruct (Nat.ltb_spec i (length S)) as [Hlt|Hge].
  - rewrite (bind_Ok _ _ _ _ _
               (upgradedInventoryLoop_body_spec _ _ _ _ _ He Hi Hlt)).
    apply IH; lia.
  - unfold ret. by replace i with (length S) by lia.
Qed.

(** With more fuel than the inventory has items, the loop finishes and
    leaves the output array followed by the rebuilt records. *)
Lemma upgradedInventoryLoop_spec fuel h inv S :
  read_items h inv = Some S -> (length S < fuel)%nat ->
  upgradedInventoryLoop fuel inv h
  = Ok (length h) (heap_after_rounds h S (length S)).
Proof.
  intros (es & He & Hi)%read_items_Some Hfuel. unfold upgradedInventoryLoop.
  unfold bind at 1, new_array.
  change (h ++ [Arr []]) with (heap_after_rounds h S 0).
  rewrite (bind_Ok _ _ _ _ _
             (upgradedInventoryLoop_for_spec _ _ _ _ He Hi fuel 0%nat
                (Nat.le_0_l _) ltac:(lia))).
  done.
Qed.

Lemma upgradedInventoryLoop_outcome fuel h inv S :
  read_items h inv = Some S -> (length S < fuel)%nat ->
  upgrade_run h inv S (upgradedInventoryLoop fuel inv h).
Proof.
  intros Hr Hfuel. rewrite (upgradedInventoryLoop_spec _ _ _ _ Hr Hfuel).
  assert (HlenR : length (upgraded_items S) = length S)
    by apply length_map.
  pose proof (heap_after_rounds_prefix h S (length S)) as Hp.
  assert (Hes : read_elems (heap_after_rounds h S (length S)) (length h)
                = Some (seq (1 + length h) (length S))).
  { apply read_elems_Some. by apply list_lookup_middle. }
  eexists _, _, (seq (1 + length h) (length S)), (upgraded_items S).
  split; [reflexivity|]. split; [exact Hes|]. split.
  { apply read_items_Some. eexists. split; [exact Hes|].
    unfold heap_after_rounds. rewrite take_ge by done.
    pose proof (items_at_block (h ++ [Arr (seq (1 + length h) (length S))])
                  (upgraded_items S) []) as Hb.
    rewrite app_nil_r, <- app_assoc, length_app, HlenR in Hb. simpl in Hb.
    by replace (length h + 1)%nat with (1 + length h)%nat in Hb by lia. }
  split; [reflexivity|].
  split; [exact HlenR|]. split; [apply upgraded_items_fields|].
  split; [lia|]. split.
  { eapply Forall_impl; [apply block_fresh|]. simpl. intros; lia. }
  split; [exact Hp|]. by eapply read_items_mono.
Qed.
End for_loop.

(** ** The example inventory *)

Lemma inventory_literal :
  inventory [] = Ok inventory_ref inventory_heap /\
  read_items inventory_heap inventory_ref = Some inventory_items.
Proof. split; reflexivity. Qed.

(** ** The upgrade expressions *)

(** C1, as the code has it.  For every inventory that reads as a sequence [S]
    of records, both [.map] upgrade expressions return a fresh array of fresh
    records, as long as [S] and in the same order, each record keeping the
    name and the broken flag of its original and carrying the language's
    sum of its power and 5; no existing cell of the heap is changed, so the
    input still reads as [S].  When every power lies between -2^53 and
    2^53 - 5 that sum is exact and each new power is the original plus 5.
    The amount is the literal 5 of the source, which has no delta
    argument. *)
Theorem upgrade_adds_five h inv S :
  read_items h inv = Some S ->
  (upgrade_run h inv S (upgradedInventoryMap inv h) /\
   upgrade_run h inv S (upgradedInventoryConcise inv h)) /\
  (safe_to_upgrade S ->
   upgrade_outcome 5 h inv S (upgradedInventoryMap inv h) /\
   upgrade_outcome 5 h inv S (upgradedInventoryConcise inv h)).
Proof.
  intros Hr.
  pose proof (array_map_outcome _ _ _ _ rebuild_builds Hr) as H1.
  pose proof (array_map_outcome _ _ _ _ spread_builds Hr) as H2.
  split; [by split|].
  intros Hsafe. split; by apply upgrade_run_safe.
Qed.

Lemma upgrade_adds_five_witness :
  read_items inventory_heap inventory_ref = Some inventory_items /\
  safe_to_upgrade inventory_items /\
  upgrade_outcome 5 inventory_heap inventory_ref inventory_items
    (upgradedInventoryMap inventory_ref inventory_heap) /\
  upgrade_outcome 5 inventory_heap inventory_ref inventory_items
    (upgradedInventoryConcise inventory_ref inventory_heap).
Proof.
  split; [reflexivity|].
  split; [repeat constructor; vm_compute; discriminate|].
  apply (upgrade_adds_five inventory_heap inventory_ref inventory_items);
    [reflexivity | repeat constructor; vm_compute; discriminate].
Defined.

(** C1 as stated fails twice.  For a delta other than 5: asked for an
    upgrade by 0 of the example inventory, the code still hands back powers
    15, 10, 13 and 17, not 10, 5, 8 and 12.  And beyond 2^53: a Sword of
    power 2^53 comes back with power 2^53 + 4, not 2^53 + 5. *)
Lemma upgrade_as_stated_counterexample :
  ((exists out h',
      upgradedInventoryMap inventory_ref inventory_heap = Ok out h' /\
      read_items h' out
      = Some [ mkItem "Sword" 15 false; mkItem "Shield" 10 false;
               mkItem "Bow" 13 true; mkItem "Axe" 17 false ]) /\
   ~ upgrade_outcome 0 inventory_heap inventory_ref inventory_items
       (upgradedInventoryMap inventory_ref inventory_heap)) /\
  ((read_items rounding_heap 2 = Some [mkItem "Sword" (2 ^ 53) false] /\
    exists out h',
      upgradedInventoryMap 2 rounding_heap = Ok out h' /\
      read_items h' out = Some [mkItem "Sword" (2 ^ 53 + 4) false]) /\
   ~ upgrade_outcome 5 rounding_heap 2 [mkItem "Sword" (2 ^ 53) false]
       (upgradedInventoryMap 2 rounding_heap)).
Proof.
  split; split.
  - by eexists _, _.
  - intros (out & h' & es' & R & Hrun & _ & HR & _ & _ & HF & _).
    vm_compute in Hrun. injection Hrun as <- <-.
    vm_compute in HR. injection HR as <-.
    apply Forall2_cons_1 in HF as [(_ & _ & Hp) _]. discriminate Hp.
  - split; [reflexivity|]. by eexists _, _.
  - intros (out & h' & es' & R & Hrun & _ & HR & _ & _ & HF & _).
    vm_compute in Hrun. injection Hrun as <- <-.
    vm_compute in HR. injection HR as <-.
    apply Forall2_cons_1 in HF as [(_ & _ & Hp) _].
    vm_compute in Hp. discriminate Hp.
Qed.

(** ** The filter expressions *)

(** C2.  For every inventory that reads as a sequence [S] of records,
    [usableInventory] (and its [!item.broken] variant) returns a fresh array
    whose references are a subsequence of the input's and whose records are
    exactly the records of [S] with [broken] false, in their original
    order; the result is never longer than [S], and no existing cell of the
    heap is changed, so the input still reads as [S]. *)
Theorem filterUsable_keeps_unbroken h inv S :
  read_items h inv = Some S ->
  filter_outcome h inv S (usableInventory inv h) /\
  filter_outcome h inv S (usableInventoryAlt inv h).
Proof.
  intros Hr. split.
  - exact (array_filter_outcome _ _ _ _ strict_false_tests Hr).
  - exact (array_filter_outcome _ _ _ _ not_broken_tests Hr).
Qed.

Lemma filterUsable_keeps_unbroken_witness :
  read_items inventory_heap inventory_ref = Some inventory_items /\
  filter_outcome inventory_heap inventory_ref inventory_items
    (usableInventory inventory_ref inventory_heap) /\
  filter_outcome inventory_heap inventory_ref inventory_items
    (usableInventoryAlt inventory_ref inventory_heap).
Proof.
  split; [reflexivity|].
  apply (filterUsable_keeps_unbroken inventory_heap inventory_ref inventory_items).
  reflexivity.
Defined.

(** The result of a filter can be empty: it is when every record is broken. *)
Lemma filterUsable_all_broken h inv S :
  read_items h inv = Some S -> Forall (fun it => broken it = true) S ->
  exists out h',
    usableInventory inv h = Ok out h' /\ read_items h' out = Some [].
Proof.
  intros Hr Hall.
  destruct (array_filter_outcome _ _ _ _ strict_false_tests Hr)
    as (out & h' & es & es' & R & Hrun & _ & _ & HR & _ & _ & HRf & _).
  exists out, h'. split; [exact Hrun|]. rewrite HR, HRf. f_equal.
  clear -Hall. induction Hall as [|it S Hb _ IH]; simpl; [done|].
  by rewrite Hb.
Qed.

(** ** The combined expression *)

Lemma filter_elems_ext p cb1 cb2 es S h :
  cb_tests p cb1 -> cb_tests p cb2 -> items_at h es S ->
  filter_elems cb1 es h = filter_elems cb2 es h.
Proof.
  intros H1 H2 HF.
  destruct (filter_elems_spec _ _ _ _ _ H1 HF) as (r1 & Hr1 & Hi1 & _).
  destruct (filter_elems_spec _ _ _ _ _ H2 HF) as (r2 & Hr2 & Hi2 & _).
  rewrite Hr1, Hr2. f_equal.
  clear Hi1 Hi2. revert r1 r2 Hr1 Hr2.
  induction HF as [|e it es S He HF IH]; simpl; intros r1 r2 Hr1 Hr2.
  - unfold ret in *. congruence.
  - rewrite (bind_Ok _ _ _ _ _ (H1 _ _ _ He)) in Hr1.
    rewrite (bind_Ok _ _ _ _ _ (H2 _ _ _ He)) in Hr2.
    destruct (filter_elems_spec _ _ _ _ _ H1 HF) as (t1 & Ht1 & _).
    destruct (filter_elems_spec _ _ _ _ _ H2 HF) as (t2 & Ht2 & _).
    rewrite (bind_Ok _ _ _ _ _ Ht1) in Hr1.
    rewrite (bind_Ok _ _ _ _ _ Ht2) in Hr2.
    unfold ret in *. specialize (IH _ _ Ht1 Ht2). subst t2.
    destruct (p it); congruence.
Qed.

Lemma array_filter_ext p cb1 cb2 h a S :
  cb_tests p cb1 -> cb_tests p cb2 -> read_items h a = Some S ->
  array_filter cb1 a h = array_filter cb2 a h.
Proof.
  intros H1 H2 (es & He & Hi)%read_items_Some. unfold array_filter.
  rewrite !(bind_Ok _ _ _ _ _ (elements_Ok _ _ _ He)).
  unfold bind. by rewrite (filter_elems_ext _ _ _ _ _ _ H1 H2 Hi).
Qed.

Lemma filterUsable_not_broken S :
  Contract.filterUsable S = List.filter (fun it => negb (broken it)) S.
Proof.
  unfold Contract.filterUsable. apply filter_ext.
  intros it. by destruct (broken it).
Qed.

Lemma upgradeAndFilterInventory_spec h inv S :
  read_items h inv = Some S ->
  upgradeAndFilterInventory inv h
  = (upgraded <- upgradedInventoryMap inv ;; usableInventory upgraded) h /\
  exists mid h1 out h' R,
    upgradedInventoryMap inv h = Ok mid h1 /\
    upgrade_run h inv S (Ok mid h1) /\
    usableInventory mid h1 = Ok out h' /\
    filter_outcome h1 mid (upgraded_items S) (Ok out h') /\
    upgradeAndFilterInventory inv h = Ok out h' /\
    read_items h' out = Some R /\
    R = unbroken (upgraded_items S) /\
    (safe_to_upgrade S ->
     upgrade_outcome 5 h inv S (Ok mid h1) /\
     R = Contract.upgradeAndFilter S 5) /\
    h `prefix_of` h' /\ read_items h' inv = Some S.
Proof.
  intros Hr.
  pose proof (array_map_outcome _ _ _ _ rebuild_builds Hr) as Hup.
  fold (upgradedInventoryMap inv) in Hup.
  pose proof Hup as (mid & h1 & es1 & R1 & Hrun1 & _ & HR1 & -> & _ & _ & _ & _ & Hp1 & Hinv1).
  pose proof (array_filter_outcome _ _ _ _ strict_false_tests HR1) as Hfi.
  fold (usableInventory mid) in Hfi.
  pose proof Hfi as (out & h' & es & es' & R & Hrun2 & _ & _ & HR & _ & _ & HRf & _ & _ & _ & Hp2 & _).
  assert (Hsame : upgradeAndFilterInventory inv h
                  = (upgraded <- upgradedInventoryMap inv ;; usableInventory upgraded) h).
  { unfold upgradeAndFilterInventory, usableInventory.
    rewrite (bind_Ok _ _ _ _ _ Hrun1).
    unfold upgradedInventoryMap in Hrun1.
    rewrite (array_map_spec _ _ _ _ _ rebuild_builds Hr) in Hrun1.
    rewrite (bind_Ok _ _ _ _ _ (array_map_spec _ _ _ _ _ spread_builds Hr)).
    injection Hrun1 as -> ->.
    exact (array_filter_ext _ _ _ _ _ _ not_broken_tests strict_false_tests HR1). }
  split; [exact Hsame|].
  exists mid, h1, out, h', R.
  split; [exact Hrun1|]. split; [by rewrite <- Hrun1|].
  split; [exact Hrun2|]. split; [by rewrite <- Hrun2|].
  split; [by rewrite Hsame, (bind_Ok _ _ _ _ _ Hrun1)|].
  split; [exact HR|]. split; [exact HRf|].
  split.
  { intros Hsafe. split.
    - apply upgrade_run_safe; [exact Hsafe | by rewrite <- Hrun1].
    - rewrite HRf, (upgraded_items_safe _ Hsafe).
      unfold Contract.upgradeAndFilter. symmetry.
      apply filterUsable_not_broken. }
  split; [by etrans|].
  eapply read_items_mono; [exact Hp2 | exact Hinv1].
Qed.

(** C3, as the code has it.  For every inventory that reads as a sequence
    [S] of records, [upgradeAndFilterInventory] is the composition of the
    script's own upgrade and filter: it gives the very outcome of running
    [usableInventory] on the array [upgradedInventoryMap] returns.  The
    intermediate array is a run of the upgrade, the final one meets the
    filter contract on it, and so the result reads as the unbroken records
    of [S], in order, each with the language's sum of its power and 5; the
    input still reads as [S].  When every power lies between -2^53 and
    2^53 - 5 the intermediate array meets the upgrade contract at delta 5
    and the result is the contract's upgrade-and-filter at delta 5.  The
    amount is the literal 5 of the source, which has no delta argument. *)
Theorem upgradeAndFilter_is_composition h inv S :
  read_items h inv = Some S ->
  upgradeAndFilterInventory inv h
  = (upgraded <- upgradedInventoryMap inv ;; usableInventory upgraded) h /\
  exists mid h1 out h' R,
    upgradedInventoryMap inv h = Ok mid h1 /\
    upgrade_run h inv S (Ok mid h1) /\
    usableInventory mid h1 = Ok out h' /\
    filter_outcome h1 mid (upgraded_items S) (Ok out h') /\
    upgradeAndFilterInventory inv h = Ok out h' /\
    read_items h' out = Some R /\
    R = unbroken (upgraded_items S) /\
    (safe_to_upgrade S ->
     upgrade_outcome 5 h inv S (Ok mid h1) /\
     R = Contract.upgradeAndFilter S 5) /\
    h `prefix_of` h' /\ read_items h' inv = Some S.
Proof. apply upgradeAndFilterInventory_spec. Qed.

Lemma upgradeAndFilter_is_composition_witness :
  (read_items inventory_heap inventory_ref = Some inventory_items /\
   safe_to_upgrade inventory_items) /\
  exists out h',
    upgradeAndFilterInventory inventory_ref inventory_heap = Ok out h' /\
    read_items h' out = Some (Contract.upgradeAndFilter inventory_items 5) /\
    Contract.upgradeAndFilter inventory_items 5
    = [ mkItem "Sword" 15 false; mkItem "Shield" 10 false;
        mkItem "Axe" 17 false ].
Proof.
  split; [split; [reflexivity | repeat constructor; vm_compute; discriminate]|].
  destruct (upgradeAndFilter_is_composition
              inventory_heap inventory_ref inventory_items eq_refl)
    as (_ & mid & h1 & out & h' & R & _ & _ & _ & _ & Hrun & HR & _ & Hsafe & _).
  destruct (Hsafe ltac:(repeat constructor; vm_compute; discriminate))
    as [_ HRc].
  exists out, h'. split; [exact Hrun|]. split; [by rewrite HR, HRc|].
  reflexivity.
Defined.

(** C3 as stated fails twice.  For a delta other than 5: asked to upgrade
    the example inventory by 0 and filter, the code hands back Sword 15,
    Shield 10 and Axe 17, not the unbroken records with their powers left
    at 10, 5 and 12.  And beyond 2^53: a Sword of power 2^53 comes through
    the pipeline with power 2^53 + 4, where the contract at delta 5 says
    2^53 + 5. *)
Lemma upgradeAndFilter_as_stated_counterexample :
  ((exists out h',
      upgradeAndFilterInventory inventory_ref inventory_heap = Ok out h' /\
      read_items h' out
      = Some [ mkItem "Sword" 15 false; mkItem "Shield" 10 false;
               mkItem "Axe" 17 false ]) /\
   Contract.upgradeAndFilter inventory_items 0
   = [ mkItem "Sword" 10 false; mkItem "Shield" 5 false;
       mkItem "Axe" 12 false ] /\
   ~ (exists out h',
        upgradeAndFilterInventory inventory_ref inventory_heap = Ok out h' /\
        read_items h' out
        = Some (Contract.upgradeAndFilter inventory_items 0))) /\
  ((read_items rounding_heap 2 = Some [mkItem "Sword" (2 ^ 53) false] /\
    exists out h',
      upgradeAndFilterInventory 2 rounding_heap = Ok out h' /\
      read_items h' out = Some [mkItem "Sword" (2 ^ 53 + 4) false]) /\
   Contract.upgradeAndFilter [mkItem "Sword" (2 ^ 53) false] 5
   = [mkItem "Sword" (2 ^ 53 + 5) false] /\
   ~ (exists out h',
        upgradeAndFilterInventory 2 rounding_heap = Ok out h' /\
        read_items h' out
        = Some (Contract.upgradeAndFilter
                  [mkItem "Sword" (2 ^ 53) false] 5))).
Proof.
  split.
  - split; [by eexists _, _|]. split; [reflexivity|].
    intros (out & h' & Hrun & HR).
    vm_compute in Hrun. injection Hrun as <- <-.
    vm_compute in HR. discriminate HR.
  - split; [split; [reflexivity | by eexists _, _]|]. split; [reflexivity|].
    intros (out & h' & Hrun & HR).
    vm_compute in Hrun. injection Hrun as <- <-.
    vm_compute in HR. discriminate HR.
Qed.

(** ** The reduction *)

Lemma sum_power_app S T : sum_power (S ++ T) = (sum_power S + sum_power T)%Z.
Proof. induction S as [|it S IH]; simpl; [done | rewrite IH; lia]. Qed.

(** While every running sum stays within 2^53 the fold of the language's
    addition is the exact fold. *)
Lemma rounded_fold_exact S acc :
  safe_sums_from acc S ->
  List.fold_left (fun s it => number_add s (power it)) S acc
  = (acc + sum_power S)%Z.
Proof.
  revert acc. induction S as [|it S IH]; intros acc; simpl; [lia|].
  intros [Hb Hrest]. rewrite number_add_exact by exact Hb.
  rewrite (IH _ Hrest). lia.
Qed.

Lemma rounded_total_exact S : safe_to_total S -> rounded_total S = sum_power S.
Proof. intros Hs. unfold rounded_total. by rewrite rounded_fold_exact. Qed.

Lemma totalPower_spec h inv S :
  read_items h inv = Some S -> totalPower inv h = Ok (rounded_total S) h.
Proof.
  intros (es & He & Hi)%read_items_Some. unfold totalPower, array_reduce.
  rewrite (bind_Ok _ _ _ _ _ (elements_Ok _ _ _ He)).
  exact (reduce_elems_spec _ _ _ _ _ sum_adds Hi 0%Z).
Qed.

(** C4, as the code has it.  [totalPower] leaves the heap alone and, when
    every running sum of the reduction stays within 2^53, returns the sum
    of the power fields of the records the inventory reads as; on an empty
    inventory it returns 0; it is additive over concatenation: when three
    arrays read as [S], [T] and [S ++ T] and the running sums of all three
    stay within 2^53, the total of the third is the sum of the totals of
    the first two; and on the example inventory of the script it is 35. *)
Theorem totalPower_sums :
  (forall h inv S,
      read_items h inv = Some S -> safe_to_total S ->
      totalPower inv h = Ok (sum_power S) h) /\
  (forall h inv, read_items h inv = Some [] -> totalPower inv h = Ok 0%Z h) /\
  (forall h a b c S T,
      read_items h a = Some S -> read_items h b = Some T ->
      read_items h c = Some (S ++ T) ->
      safe_to_total S -> safe_to_total T -> safe_to_total (S ++ T) ->
      exists x y,
        totalPower a h = Ok x h /\ totalPower b h = Ok y h /\
        totalPower c h = Ok (x + y)%Z h) /\
  (exists inv h,
      inventory [] = Ok inv h /\ read_items h inv = Some inventory_items /\
      totalPower inv h = Ok 35%Z h).
Proof.
  split; [|split; [|split]].
  - intros h inv S Hr Hs.
    by rewrite (totalPower_spec _ _ _ Hr), rounded_total_exact.
  - intros h inv Hr. exact (totalPower_spec _ _ _ Hr).
  - intros h a b c S T Ha Hb Hc HS HT HST.
    exists (sum_power S), (sum_power T).
    rewrite (totalPower_spec _ _ _ Ha), (totalPower_spec _ _ _ Hb),
      (totalPower_spec _ _ _ Hc), !rounded_total_exact, sum_power_app by done.
    done.
  - exists inventory_ref, inventory_heap.
    split; [reflexivity|]. split; [reflexivity|].
    exact (totalPower_spec _ _ _ (proj2 inventory_literal)).
Qed.

Lemma totalPower_sums_witness :
  ((read_items concat_heap 3
    = Some [mkItem "Sword" 10 false; mkItem "Shield" 5 false] /\
    read_items concat_heap 4 = Some [mkItem "Bow" 8 true] /\
    read_items concat_heap 5
    = Some ([mkItem "Sword" 10 false; mkItem "Shield" 5 false]
            ++ [mkItem "Bow" 8 true])) /\
   safe_to_total [mkItem "Sword" 10 false; mkItem "Shield" 5 false] /\
   safe_to_total [mkItem "Bow" 8 true] /\
   safe_to_total ([mkItem "Sword" 10 false; mkItem "Shield" 5 false]
                  ++ [mkItem "Bow" 8 true])) /\
  exists x y,
    totalPower 3 concat_heap = Ok x concat_heap /\
    totalPower 4 concat_heap = Ok y concat_heap /\
    totalPower 5 concat_heap = Ok (x + y)%Z concat_heap.
Proof.
  split.
  { split; [repeat split|].
    repeat split; vm_compute; discriminate. }
  apply (proj1 (proj2 (proj2 totalPower_sums)) concat_heap 3%nat 4%nat 5%nat
           [mkItem "Sword" 10 false; mkItem "Shield" 5 false]
           [mkItem "Bow" 8 true]);
    try reflexivity; repeat split; vm_compute; discriminate.
Defined.

(** C4 as stated fails beyond 2^53, where the additions of the reduction
    round: the array that reads as a Sword of power 2^53 followed by two
    Rings of power 1 totals 2^53, not the sum 2^53 + 2 of its power fields,
    while its two parts total 2^53 and 2; so the total is neither the sum
    nor additive over this concatenation. *)
Lemma totalPower_as_stated_counterexample :
  (read_items rounding_heap 2 = Some [mkItem "Sword" (2 ^ 53) false] /\
   read_items rounding_heap 3
   = Some [mkItem "Ring" 1 false; mkItem "Ring" 1 false] /\
   read_items rounding_heap 4
   = Some ([mkItem "Sword" (2 ^ 53) false]
           ++ [mkItem "Ring" 1 false; mkItem "Ring" 1 false])) /\
  (totalPower 2 rounding_heap = Ok (2 ^ 53)%Z rounding_heap /\
   totalPower 3 rounding_heap = Ok 2%Z rounding_heap /\
   totalPower 4 rounding_heap = Ok (2 ^ 53)%Z rounding_heap) /\
  totalPower 4 rounding_heap
  <> Ok (sum_power ([mkItem "Sword" (2 ^ 53) false]
                    ++ [mkItem "Ring" 1 false; mkItem "Ring" 1 false]))
        rounding_heap /\
  ~ (exists x y,
       totalPower 2 rounding_heap = Ok x rounding_heap /\
       totalPower 3 rounding_heap = Ok y rounding_heap /\
       totalPower 4 rounding_heap = Ok (x + y)%Z rounding_heap).
Proof.
  split; [repeat split|]. split; [repeat split|]. split.
  - vm_compute. discriminate.
  - intros (x & y & Hx & Hy & Hxy).
    vm_compute in Hx. injection Hx as <-.
    vm_compute in Hy. injection Hy as <-.
    vm_compute in Hxy. discriminate Hxy.
Qed.

(** ** The searches and the tests *)

Lemma powerfulItem_spec h inv S :
  read_items h inv = Some S -> find_outcome 10 h inv S (powerfulItem inv h).
Proof.
  intros (es & He & Hi)%read_items_Some. unfold powerfulItem, array_find.
  rewrite (bind_Ok _ _ _ _ _ (elements_Ok _ _ _ He)).
  destruct (find_elems_spec _ _ _ _ _ (above_tests 10) Hi)
    as [(i & o & Hrun & Ho & Hfirst) | [Hrun Hall]].
  - left. pose proof Hfirst as [(it & HS & Hp) _].
    exists i, o, it, es. repeat split; try done.
    + exact (Forall2_lookup_lr _ _ _ _ _ _ Hi Ho HS).
    + by apply Z.ltb_lt.
    + by exists it.
    + by destruct Hfirst.
  - right. split; [done|]. eapply Forall_impl; [exact Hall|].
    intros it. simpl. by apply Z.ltb_ge.
Qed.

(** C6, as the code has it.  For every inventory that reads as a sequence
    [S] of records, [powerfulItem] returns the reference stored at the first
    position of the inventory whose record has power strictly above 10, and
    returns [undefined], as a value, when no record has power above 10.  The
    threshold is the literal 10 of the source, which has no threshold
    argument. *)
Theorem findFirstAbove_ten h inv S :
  read_items h inv = Some S -> find_outcome 10 h inv S (powerfulItem inv h).
Proof. apply powerfulItem_spec. Qed.

Lemma findFirstAbove_ten_witness :
  read_items inventory_heap inventory_ref = Some inventory_items /\
  find_outcome 10 inventory_heap inventory_ref inventory_items
    (powerfulItem inventory_ref inventory_heap).
Proof.
  split; [reflexivity|].
  apply (findFirstAbove_ten inventory_heap inventory_ref inventory_items).
  reflexivity.
Defined.

(** C6 as stated fails for a threshold other than 10: asked for the first
    item of the example inventory above 0, which is the Sword at index 0,
    the code hands back the Axe at index 3. *)
Lemma findFirstAbove_zero_counterexample :
  (powerfulItem inventory_ref inventory_heap = Ok (Some 3%nat) inventory_heap /\
   read_item inventory_heap 3 = Some (mkItem "Axe" 12 false)) /\
  Contract.findFirstAbove inventory_items 0 = Some (mkItem "Sword" 10 false) /\
  ~ find_outcome 0 inventory_heap inventory_ref inventory_items
      (powerfulItem inventory_ref inventory_heap).
Proof.
  split; [split; reflexivity|]. split; [reflexivity|].
  intros [(i & o & it & es & Hrun & He & Hes & _ & _ & _ & _ & Hfirst)
         | [Hrun _]].
  - vm_compute in Hrun. injection Hrun as <-.
    vm_compute in He. injection He as <-.
    destruct i as [|i]; [discriminate Hes|].
    specialize (Hfirst 0%nat (mkItem "Sword" 10 false) ltac:(lia) eq_refl).
    discriminate Hfirst.
  - vm_compute in Hrun. discriminate Hrun.
Qed.

Lemma brokenItemIndex_spec h inv S :
  read_items h inv = Some S ->
  (exists i, brokenItemIndex inv h = Ok (Z.of_nat i) h /\
             (i < length S)%nat /\ first_at broken S i) \/
  (brokenItemIndex inv h = Ok (-1)%Z h /\
   Forall (fun it => broken it = false) S /\
   forall i, (i < length S)%nat -> Z.of_nat i <> (-1)%Z).
Proof.
  intros (es & He & Hi)%read_items_Some. unfold brokenItemIndex, array_findIndex.
  rewrite (bind_Ok _ _ _ _ _ (elements_Ok _ _ _ He)).
  destruct (findIndex_elems_spec _ _ _ _ _ broken_tests Hi 0%Z)
    as [(i & Hrun & Hfirst) | [Hrun Hall]].
  - left. exists i. rewrite Z.add_0_l in Hrun. split; [done|]. split; [|done].
    destruct Hfirst as [(it & HS & _) _]. by eapply lookup_lt_Some.
  - right. repeat split; [done | done | lia].
Qed.

(** C7.  For every inventory that reads as a sequence [S] of records,
    [brokenItemIndex] returns the position of the first record whose
    [broken] is true; when no record is broken it returns -1, which is the
    index of no position of [S].  The heap is left as it was. *)
Theorem indexOfFirstBroken_or_minus_one h inv S :
  read_items h inv = Some S ->
  (exists i, brokenItemIndex inv h = Ok (Z.of_nat i) h /\
             (i < length S)%nat /\ first_at broken S i) \/
  (brokenItemIndex inv h = Ok (-1)%Z h /\
   Forall (fun it => broken it = false) S /\
   forall i, (i < length S)%nat -> Z.of_nat i <> (-1)%Z).
Proof. apply brokenItemIndex_spec. Qed.

Lemma indexOfFirstBroken_or_minus_one_witness :
  read_items inventory_heap inventory_ref = Some inventory_items /\
  ((exists i, brokenItemIndex inventory_ref inventory_heap
              = Ok (Z.of_nat i) inventory_heap /\
              (i < length inventory_items)%nat /\
              first_at broken inventory_items i) \/
   (brokenItemIndex inventory_ref inventory_heap = Ok (-1)%Z inventory_heap /\
    Forall (fun it => broken it = false) inventory_items /\
    forall i, (i < length inventory_items)%nat -> Z.of_nat i <> (-1)%Z)).
Proof.
  split; [reflexivity|].
  apply (indexOfFirstBroken_or_minus_one
           inventory_heap inventory_ref inventory_items).
  reflexivity.
Defined.

Lemma forallb_above t S :
  List.forallb (fun it => (t <? power it)%Z) S = true
  <-> Forall (fun it => (t < power it)%Z) S.
Proof.
  induction S as [|it S IH]; simpl.
  - split; [constructor | done].
  - rewrite Bool.andb_true_iff, IH, Z.ltb_lt, Forall_cons. tauto.
Qed.

Lemma allPowerful_spec h inv S :
  read_items h inv = Some S ->
  allPowerful inv h = Ok (List.forallb (fun it => (5 <? power it)%Z) S) h.
Proof.
  intros (es & He & Hi)%read_items_Some. unfold allPowerful, array_every.
  rewrite (bind_Ok _ _ _ _ _ (elements_Ok _ _ _ He)).
  exact (every_elems_spec _ _ _ _ _ (above_tests 5) Hi).
Qed.

(** C8, as the code has it.  For every inventory that reads as a sequence
    [S] of records, [allPowerful] returns true exactly when every record of
    [S] has power strictly above 5, and so returns true on the empty
    inventory.  The threshold is the literal 5 of the source, which has no
    threshold argument. *)
Theorem allAbove_five h inv S :
  read_items h inv = Some S ->
  every_outcome 5 h S (allPowerful inv h) /\
  (S = [] -> allPowerful inv h = Ok true h).
Proof.
  intros Hr. rewrite (allPowerful_spec _ _ _ Hr). split.
  - eexists. split; [reflexivity|]. apply forallb_above.
  - by intros ->.
Qed.

Lemma allAbove_five_witness :
  read_items inventory_heap inventory_ref = Some inventory_items /\
  every_outcome 5 inventory_heap inventory_items
    (allPowerful inventory_ref inventory_heap) /\
  (inventory_items = [] ->
   allPowerful inventory_ref inventory_heap = Ok true inventory_heap).
Proof.
  split; [reflexivity|].
  apply (allAbove_five inventory_heap inventory_ref inventory_items).
  reflexivity.
Defined.

(** C8 as stated fails for a threshold other than 5: every item of the
    example inventory has power above 0, yet the code answers false, the
    Shield having power 5. *)
Lemma allAbove_zero_counterexample :
  allPowerful inventory_ref inventory_heap = Ok false inventory_heap /\
  Contract.allAbove inventory_items 0 = true /\
  ~ every_outcome 0 inventory_heap inventory_items
      (allPowerful inventory_ref inventory_heap).
Proof.
  split; [reflexivity|]. split; [reflexivity|].
  intros (b & Hrun & Hiff).
  vm_compute in Hrun. injection Hrun as <-.
  assert (Hall : Forall (fun x => (0 < power x)%Z) inventory_items)
    by (repeat constructor).
  apply Hiff in Hall. discriminate Hall.
Qed.

Lemma hasBrokenItems_spec h inv S :
  read_items h inv = Some S ->
  hasBrokenItems inv h = Ok (List.existsb broken S) h.
Proof.
  intros (es & He & Hi)%read_items_Some. unfold hasBrokenItems, array_some.
  rewrite (bind_Ok _ _ _ _ _ (elements_Ok _ _ _ He)).
  exact (some_elems_spec _ _ _ _ _ broken_tests Hi).
Qed.

(** C9.  For every inventory that reads as a sequence [S] of records,
    [hasBrokenItems] returns true exactly when at least one record of [S]
    has [broken] true, and so returns false on the empty inventory.  The
    heap is left as it was. *)
Theorem anyBroken_iff_some_broken h inv S :
  read_items h inv = Some S ->
  exists b,
    hasBrokenItems inv h = Ok b h /\
    (b = true <-> exists it, it ∈ S /\ broken it = true) /\
    (S = [] -> b = false).
Proof.
  intros Hr. rewrite (hasBrokenItems_spec _ _ _ Hr).
  eexists. split; [reflexivity|]. split.
  - rewrite existsb_exists. split; intros (it & Hin & Hb); exists it;
      (split; [by apply list_elem_of_In | done]).
  - by intros ->.
Qed.

Lemma anyBroken_iff_some_broken_witness :
  read_items inventory_heap inventory_ref = Some inventory_items /\
  exists b,
    hasBrokenItems inventory_ref inventory_heap = Ok b inventory_heap /\
    (b = true <-> exists it, it ∈ inventory_items /\ broken it = true) /\
    (inventory_items = [] -> b = false).
Proof.
  split; [reflexivity|].
  apply (anyBroken_iff_some_broken inventory_heap inventory_ref inventory_items).
  reflexivity.
Defined.

(** ** The three upgrades agree *)

(** C10.  For every inventory that reads as a sequence [S] of records, the
    [for] loop (given more fuel than [S] has items), the field-by-field
    [.map] and the spread [.map] all return, and the three arrays they
    return read as the same sequence of records: those of [S], each with
    its name and flag kept and with the language's sum of its power and 5,
    which is its power plus 5 when every power lies between -2^53 and
    2^53 - 5. *)
Theorem three_upgrades_agree fuel h inv S :
  read_items h inv = Some S -> (length S < fuel)%nat ->
  exists o1 h1 o2 h2 o3 h3 R,
    upgradedInventoryLoop fuel inv h = Ok o1 h1 /\
    upgradedInventoryMap inv h = Ok o2 h2 /\
    upgradedInventoryConcise inv h = Ok o3 h3 /\
    read_items h1 o1 = Some R /\
    read_items h2 o2 = Some R /\
    read_items h3 o3 = Some R /\
    Forall2 (fun it it' =>
               name it' = name it /\ broken it' = broken it /\
               power it' = number_add (power it) 5) S R /\
    (safe_to_upgrade S -> Forall2 (upgraded_by 5) S R).
Proof.
  intros Hr Hfuel.
  destruct (upgradedInventoryLoop_outcome _ _ _ _ Hr Hfuel)
    as (o1 & h1 & ? & R1 & Hrun1 & _ & HR1 & -> & _ & HF & _).
  destruct (array_map_outcome _ _ _ _ rebuild_builds Hr)
    as (o2 & h2 & ? & R2 & Hrun2 & _ & HR2 & -> & _).
  destruct (array_map_outcome _ _ _ _ spread_builds Hr)
    as (o3 & h3 & ? & R3 & Hrun3 & _ & HR3 & -> & _).
  exists o1, h1, o2, h2, o3, h3, (upgraded_items S).
  repeat (split; [done|]).
  intros Hsafe. rewrite (upgraded_items_safe _ Hsafe).
  apply upgraded_by_upgrade.
Qed.

Lemma three_upgrades_agree_witness :
  (read_items inventory_heap inventory_ref = Some inventory_items /\
   (length inventory_items < 5)%nat) /\
  exists o1 h1 o2 h2 o3 h3 R,
    upgradedInventoryLoop 5 inventory_ref inventory_heap = Ok o1 h1 /\
    upgradedInventoryMap inventory_ref inventory_heap = Ok o2 h2 /\
    upgradedInventoryConcise inventory_ref inventory_heap = Ok o3 h3 /\
    read_items h1 o1 = Some R /\
    read_items h2 o2 = Some R /\
    read_items h3 o3 = Some R /\
    Forall2 (fun it it' =>
               name it' = name it /\ broken it' = broken it /\
               power it' = number_add (power it) 5) inventory_items R /\
    (safe_to_upgrade inventory_items ->
     Forall2 (upgraded_by 5) inventory_items R).
Proof.
  split; [split; [reflexivity | simpl; lia]|].
  apply (three_upgrades_agree 5 inventory_heap inventory_ref inventory_items);
    [reflexivity | simpl; lia].
Defined.

(** The agreement holds where the addition rounds, too: on a Sword of power
    2^53 all three give power 2^53 + 4. *)
Example three_upgrades_agree_beyond_2_53 :
  exists o1 h1 o2 h2 o3 h3,
    upgradedInventoryLoop 2 2 rounding_heap = Ok o1 h1 /\
    upgradedInventoryMap 2 rounding_heap = Ok o2 h2 /\
    upgradedInventoryConcise 2 rounding_heap = Ok o3 h3 /\
    read_items h1 o1 = Some [mkItem "Sword" (2 ^ 53 + 4) false] /\
    read_items h2 o2 = Some [mkItem "Sword" (2 ^ 53 + 4) false] /\
    read_items h3 o3 = Some [mkItem "Sword" (2 ^ 53 + 4) false].
Proof. by eexists _, _, _, _, _, _. Qed.

(** ** No operation throws *)

Lemma returns_Ok {A} (a : A) h : returns (Ok a h).
Proof. by exists a, h. Qed.

(** C5.  On every inventory that reads as a sequence [S] of records, each
    expression of the script returns a value: none throws, and the [for]
    loop finishes within any fuel above the length of [S].  Not finding is a
    value too: [powerfulItem] returns [undefined] when no record has power
    above 10, and [brokenItemIndex] returns -1 when no record is broken. *)
Theorem every_operation_returns fuel h inv S :
  read_items h inv = Some S -> (length S < fuel)%nat ->
  returns (upgradedInventoryLoop fuel inv h) /\
  returns (upgradedInventoryMap inv h) /\
  returns (upgradedInventoryConcise inv h) /\
  returns (usableInventory inv h) /\
  returns (usableInventoryAlt inv h) /\
  returns (upgradeAndFilterInventory inv h) /\
  returns (powerfulItem inv h) /\
  returns (brokenItemIndex inv h) /\
  returns (hasBrokenItems inv h) /\
  returns (allPowerful inv h) /\
  returns (totalPower inv h) /\
  (Forall (fun it => (power it <= 10)%Z) S ->
   powerfulItem inv h = Ok None h) /\
  (Forall (fun it => broken it = false) S ->
   brokenItemIndex inv h = Ok (-1)%Z h).
Proof.
  intros Hr Hfuel.
  split. { rewrite (upgradedInventoryLoop_spec _ _ _ _ Hr Hfuel). apply returns_Ok. }
  split. { destruct (array_map_outcome _ _ _ _ rebuild_builds Hr)
             as (o & h' & _ & _ & Hrun & _). by exists o, h'. }
  split. { destruct (array_map_outcome _ _ _ _ spread_builds Hr)
             as (o & h' & _ & _ & Hrun & _). by exists o, h'. }
  split. { destruct (array_filter_outcome _ _ _ _ strict_false_tests Hr)
             as (o & h' & _ & _ & _ & Hrun & _). by exists o, h'. }
  split. { destruct (array_filter_outcome _ _ _ _ not_broken_tests Hr)
             as (o & h' & _ & _ & _ & Hrun & _). by exists o, h'. }
  split. { destruct (upgradeAndFilterInventory_spec _ _ _ Hr)
             as (_ & _ & _ & o & h' & _ & _ & _ & _ & _ & Hrun & _).
           by exists o, h'. }
  pose proof (powerfulItem_spec _ _ _ Hr) as Hfind.
  pose proof (brokenItemIndex_spec _ _ _ Hr) as Hidx.
  split. { destruct Hfind as [(i & o & it & es & -> & _) | [-> _]];
             apply returns_Ok. }
  split. { destruct Hidx as [(i & -> & _) | [-> _]]; apply returns_Ok. }
  split. { rewrite (hasBrokenItems_spec _ _ _ Hr). apply returns_Ok. }
  split. { rewrite (allPowerful_spec _ _ _ Hr). apply returns_Ok. }
  split. { rewrite (totalPower_spec _ _ _ Hr). apply returns_Ok. }
  split.
  - intros Hall.
    destruct Hfind as [(i & o & it & es & _ & _ & _ & _ & HS & Hlt & _) | [Hrun _]];
      [|done].
    apply list_elem_of_lookup_2 in HS.
    rewrite Forall_forall in Hall. specialize (Hall _ HS). lia.
  - intros Hall.
    destruct Hidx as [(i & _ & _ & (it & HS & Hb) & _) | [Hrun _]]; [|done].
    apply list_elem_of_lookup_2 in HS.
    rewrite Forall_forall in Hall. specialize (Hall _ HS). congruence.
Qed.

Lemma every_operation_returns_witness :
  (read_items inventory_heap inventory_ref = Some inventory_items /\
   (length inventory_items < 5)%nat) /\
  returns (upgradedInventoryLoop 5 inventory_ref inventory_heap) /\
  returns (upgradedInventoryMap inventory_ref inventory_heap) /\
  returns (upgradedInventoryConcise inventory_ref inventory_heap) /\
  returns (usableInventory inventory_ref inventory_heap) /\
  returns (usableInventoryAlt inventory_ref inventory_heap) /\
  returns (upgradeAndFilterInventory inventory_ref inventory_heap) /\
  returns (powerfulItem inventory_ref inventory_heap) /\
  returns (brokenItemIndex inventory_ref inventory_heap) /\
  returns (hasBrokenItems inventory_ref inventory_heap) /\
  returns (allPowerful inventory_ref inventory_heap) /\
  returns (totalPower inventory_ref inventory_heap) /\
  (Forall (fun it => (power it <= 10)%Z) inventory_items ->
   powerfulItem inventory_ref inventory_heap = Ok None inventory_heap) /\
  (Forall (fun it => broken it = false) inventory_items ->
   brokenItemIndex inventory_ref inventory_heap = Ok (-1)%Z inventory_heap).
Proof.
  split; [split; [reflexivity | simpl; lia]|].
  apply (every_operation_returns 5 inventory_heap inventory_ref inventory_items);
    [reflexivity | simpl; lia].
Defined.

(** ** What the script prints for the example inventory *)

Example upgradedInventoryLoop_example :
  exists out h',
    upgradedInventoryLoop 5 inventory_ref inventory_heap = Ok out h' /\
    read_items h' out
    = Some [ mkItem "Sword" 15 false; mkItem "Shield" 10 false;
             mkItem "Bow" 13 true; mkItem "Axe" 17 false ] /\
    read_items h' inventory_ref = Some inventory_items.
Proof. by eexists _, _. Qed.

Example upgradedInventoryLoop_short_of_fuel :
  upgradedInventoryLoop 4 inventory_ref inventory_heap = OutOfFuel.
Proof. reflexivity. Qed.

Example upgradedInventoryMap_example :
  exists out h',
    upgradedInventoryMap inventory_ref inventory_heap = Ok out h' /\
    read_items h' out
    = Some [ mkItem "Sword" 15 false; mkItem "Shield" 10 false;
             mkItem "Bow" 13 true; mkItem "Axe" 17 false ].
Proof. by eexists _, _. Qed.

Example usableInventory_example :
  usableInventory inventory_ref inventory_heap
  = Ok 5%nat (inventory_heap ++ [Arr [0; 1; 3]%nat]).
Proof. reflexivity. Qed.

Example powerfulItem_example :
  powerfulItem inventory_ref inventory_heap = Ok (Some 3%nat) inventory_heap /\
  read_item inventory_heap 3 = Some (mkItem "Axe" 12 false).
Proof. split; reflexivity. Qed.

Example brokenItemIndex_example :
  brokenItemIndex inventory_ref inventory_heap = Ok 2%Z inventory_heap.
Proof. reflexivity. Qed.

Example hasBrokenItems_example :
  hasBrokenItems inventory_ref inventory_heap = Ok true inventory_heap.
Proof. reflexivity. Qed.

Example allPowerful_example :
  allPowerful inventory_ref inventory_heap = Ok false inventory_heap.
Proof. reflexivity. Qed.

Example dangling_reference_throws :
  totalPower 0 [Arr [7]%nat] = TypeError.
Proof. reflexivity. Qed.

Example number_to_string_examples :
  number_to_string 10 = "10" /\ number_to_string 0 = "0" /\
  number_to_string (-7) = "-7".
Proof. repeat split. Qed.

Example logEachItem_example :
  logEachItem inventory_ref [] inventory_heap
  = Ok [ "Sword: Power 10, Not broken"; "Shield: Power 5, Not broken";
         "Bow: Power 8, Broken"; "Axe: Power 12, Not broken" ]
       inventory_heap.
Proof. reflexivity. Qed.

(** ** One expression run on the result of another *)

Lemma sum_power_upgrade S d :
  sum_power (Contract.upgrade S d)
  = (sum_power S + d * Z.of_nat (length S))%Z.
Proof.
  induction S as [|it S IH]; [simpl; lia|].
  change (sum_power (Contract.upgrade (it :: S) d))
    with (power it + d + sum_power (Contract.upgrade S d))%Z.
  rewrite IH. simpl sum_power. simpl length. lia.
Qed.

Lemma existsb_broken_unbroken S : List.existsb broken (unbroken S) = false.
Proof.
  unfold unbroken. induction S as [|it S IH]; simpl; [done|].
  destruct (broken it) eqn:Hb; simpl; [done|]. by rewrite Hb.
Qed.

Lemma upgraded_items_unbroken_comm S :
  unbroken (upgraded_items S) = upgraded_items (unbroken S).
Proof.
  unfold unbroken, upgraded_items.
  induction S as [|it S IH]; simpl; [done|].
  destruct (broken it) eqn:Hb; simpl; rewrite ?Hb; simpl;
    [exact IH | by rewrite IH].
Qed.

Lemma unbroken_idem S : unbroken (unbroken S) = unbroken S.
Proof.
  unfold unbroken. induction S as [|it S IH]; simpl; [done|].
  destruct (broken it) eqn:Hb; simpl; [done|]. by rewrite Hb, IH.
Qed.

Lemma existsb_broken_false S :
  List.existsb broken S = false <-> unbroken S = S.
Proof.
  unfold unbroken. induction S as [|it S IH]; simpl; [done|].
  destruct (broken it); simpl.
  - split; [done|]. intros Heq.
    pose proof (sublist_length _ _ (List_filter_sublist
                  (fun it => negb (broken it)) S)) as Hle.
    rewrite Heq in Hle. simpl in Hle. lia.
  - rewrite IH. split; [by intros -> | by intros [= ->]].
Qed.

(** The array a filter returns sits right after the old heap and holds the
    references of the records that pass, which read as they did. *)
Lemma array_filter_spec p cb h a es S :
  cb_tests p cb -> read_elems h a = Some es -> items_at h es S ->
  exists es',
    array_filter cb a h = Ok (length h) (h ++ [Arr es']) /\
    filter_elems cb es h = Ok es' h /\
    read_elems (h ++ [Arr es']) (length h) = Some es' /\
    items_at (h ++ [Arr es']) es' (List.filter p S) /\
    es' `sublist_of` es.
Proof.
  intros Hcb He Hi.
  destruct (filter_elems_spec _ _ _ _ _ Hcb Hi) as (es' & Hrun & Hi' & Hsub).
  exists es'. unfold array_filter.
  rewrite (bind_Ok _ _ _ _ _ (elements_Ok _ _ _ He)), (bind_Ok _ _ _ _ _ Hrun).
  split; [reflexivity|]. split; [exact Hrun|]. split.
  { apply read_elems_Some. by apply list_lookup_middle. }
  split; [|exact Hsub].
  eapply items_at_mono; [|exact Hi']. by apply prefix_app_r.
Qed.

(** A filter whose test every record passes hands back the very list of
    references it was given. *)
Lemma filter_elems_all p cb es S h :
  cb_tests p cb -> items_at h es S -> List.filter p S = S ->
  filter_elems cb es h = Ok es h.
Proof.
  intros Hcb HF. induction HF as [|e it es S He HF IH]; simpl; [done|].
  intros Heq. rewrite (bind_Ok _ _ _ _ _ (Hcb _ _ _ He)).
  destruct (p it).
  - injection Heq as Heq. by rewrite (bind_Ok _ _ _ _ _ (IH Heq)).
  - pose proof (sublist_length _ _ (List_filter_sublist p S)) as Hle.
    rewrite Heq in Hle. simpl in Hle. lia.
Qed.

(** X1.  Upgrading and then totalling: on every inventory that reads as a
    sequence [S] of records whose powers lie between -2^53 and 2^53 - 5
    and whose running sums, before and after the upgrade, stay within
    2^53, [totalPower] run on the array [upgradedInventoryMap] returns
    gives the total of [S] plus 5 for each record, while the total of the
    inventory itself is still that of [S]. *)
Theorem totalPower_after_upgrade h inv S :
  read_items h inv = Some S ->
  safe_to_upgrade S -> safe_to_total S ->
  safe_to_total (Contract.upgrade S 5) ->
  exists out h',
    upgradedInventoryMap inv h = Ok out h' /\
    totalPower out h'
    = Ok (sum_power S + 5 * Z.of_nat (length S))%Z h' /\
    totalPower inv h' = Ok (sum_power S) h'.
Proof.
  intros Hr Hup Hs Hs'.
  destruct (array_map_outcome _ _ _ _ rebuild_builds Hr)
    as (out & h' & es' & R & Hrun & _ & HR & -> & _ & _ & _ & _ & _ & Hinv).
  rewrite (upgraded_items_safe _ Hup) in HR.
  exists out, h'. split; [exact Hrun|]. split.
  - by rewrite (totalPower_spec _ _ _ HR), rounded_total_exact,
      sum_power_upgrade.
  - by rewrite (totalPower_spec _ _ _ Hinv), rounded_total_exact.
Qed.

Lemma totalPower_after_upgrade_witness :
  (read_items inventory_heap inventory_ref = Some inventory_items /\
   safe_to_upgrade inventory_items /\ safe_to_total inventory_items /\
   safe_to_total (Contract.upgrade inventory_items 5)) /\
  exists out h',
    upgradedInventoryMap inventory_ref inventory_heap = Ok out h' /\
    totalPower out h'
    = Ok (sum_power inventory_items
          + 5 * Z.of_nat (length inventory_items))%Z h' /\
    totalPower inventory_ref h' = Ok (sum_power inventory_items) h'.
Proof.
  split.
  { split; [reflexivity|]. split; [repeat constructor; vm_compute; discriminate|].
    split; repeat split; vm_compute; discriminate. }
  apply (totalPower_after_upgrade inventory_heap inventory_ref inventory_items);
    [reflexivity | repeat constructor; vm_compute; discriminate
    | repeat split; vm_compute; discriminate
    | repeat split; vm_compute; discriminate].
Defined.

(** X2.  Nothing broken survives the pipeline: on every inventory that reads
    as a sequence of records, the array [upgradeAndFilterInventory] returns
    makes [hasBrokenItems] answer false and [brokenItemIndex] answer -1, and
    so does the array [usableInventory] returns. *)
Theorem filtered_has_nothing_broken h inv S :
  read_items h inv = Some S ->
  (exists out h',
     upgradeAndFilterInventory inv h = Ok out h' /\
     hasBrokenItems out h' = Ok false h' /\
     brokenItemIndex out h' = Ok (-1)%Z h') /\
  (exists out h',
     usableInventory inv h = Ok out h' /\
     hasBrokenItems out h' = Ok false h' /\
     brokenItemIndex out h' = Ok (-1)%Z h').
Proof.
  intros Hr.
  assert (Hnone : forall h' out X,
            read_items h' out = Some (unbroken X) ->
            hasBrokenItems out h' = Ok false h' /\
            brokenItemIndex out h' = Ok (-1)%Z h').
  { intros h' out X HR. split.
    - by rewrite (hasBrokenItems_spec _ _ _ HR), existsb_broken_unbroken.
    - destruct (brokenItemIndex_spec _ _ _ HR)
        as [(i & _ & _ & (it & Hit & Hb) & _) | [Hrun _]]; [|done].
      apply list_elem_of_lookup_2, list_elem_of_In in Hit.
      apply filter_In in Hit as [_ Hnb]. rewrite Hb in Hnb. discriminate. }
  split.
  - destruct (upgradeAndFilterInventory_spec _ _ _ Hr)
      as (_ & mid & h1 & out & h' & R & _ & _ & _ & _ & Hrun & HR & -> & _).
    exists out, h'. split; [exact Hrun|].
    by apply (Hnone _ _ (upgraded_items S)).
  - destruct (array_filter_outcome _ _ _ _ strict_false_tests Hr)
      as (out & h' & es & es' & R & Hrun & _ & _ & HR & _ & _ & -> & _).
    exists out, h'. split; [exact Hrun|]. by apply (Hnone _ _ S).
Qed.

Lemma filtered_has_nothing_broken_witness :
  read_items inventory_heap inventory_ref = Some inventory_items /\
  (exists out h',
     upgradeAndFilterInventory inventory_ref inventory_heap = Ok out h' /\
     hasBrokenItems out h' = Ok false h' /\
     brokenItemIndex out h' = Ok (-1)%Z h') /\
  (exists out h',
     usableInventory inventory_ref inventory_heap = Ok out h' /\
     hasBrokenItems out h' = Ok false h' /\
     brokenItemIndex out h' = Ok (-1)%Z h').
Proof.
  split; [reflexivity|].
  apply (filtered_has_nothing_broken inventory_heap inventory_ref inventory_items).
  reflexivity.
Defined.

(** X3.  [.some] and [.findIndex] agree: on every inventory that reads as a
    sequence of records, [hasBrokenItems] answers true exactly when
    [brokenItemIndex] answers an index (a number from 0 up), and false
    exactly when it answers -1. *)
Theorem hasBrokenItems_iff_index_found h inv S :
  read_items h inv = Some S ->
  exists b k,
    hasBrokenItems inv h = Ok b h /\ brokenItemIndex inv h = Ok k h /\
    (b = true <-> (0 <= k < Z.of_nat (length S))%Z) /\
    (b = false <-> k = (-1)%Z).
Proof.
  intros Hr. rewrite (hasBrokenItems_spec _ _ _ Hr).
  destruct (brokenItemIndex_spec _ _ _ Hr)
    as [(i & -> & Hlt & (it & Hit & Hb) & _) | (-> & Hall & _)].
  - assert (He : List.existsb broken S = true).
    { apply existsb_exists. exists it. split; [|done].
      by apply list_elem_of_In, list_elem_of_lookup_2 with i. }
    rewrite He. eexists _, _. repeat split; try done; lia.
  - assert (He : List.existsb broken S = false).
    { clear -Hall. induction Hall as [|it S Hb _ IH]; simpl; [done|].
      by rewrite Hb. }
    rewrite He. eexists _, _. repeat split; try done; lia.
Qed.

Lemma hasBrokenItems_iff_index_found_witness :
  read_items inventory_heap inventory_ref = Some inventory_items /\
  exists b k,
    hasBrokenItems inventory_ref inventory_heap = Ok b inventory_heap /\
    brokenItemIndex inventory_ref inventory_heap = Ok k inventory_heap /\
    (b = true <-> (0 <= k < Z.of_nat (length inventory_items))%Z) /\
    (b = false <-> k = (-1)%Z).
Proof.
  split; [reflexivity|].
  apply (hasBrokenItems_iff_index_found
           inventory_heap inventory_ref inventory_items).
  reflexivity.
Defined.

(** X4.  Filtering twice changes nothing more: on every inventory that reads
    as a sequence [S] of records, [usableInventory] run on the array
    [usableInventory] returns gives another new array holding the very same
    references, which read as the unbroken records of [S]. *)
Theorem usableInventory_twice h inv S :
  read_items h inv = Some S ->
  exists out1 h1 out2 h2 es',
    usableInventory inv h = Ok out1 h1 /\
    usableInventory out1 h1 = Ok out2 h2 /\
    read_elems h2 out1 = Some es' /\ read_elems h2 out2 = Some es' /\
    read_items h2 out2 = Some (unbroken S) /\
    out1 <> out2.
Proof.
  intros (es & He & Hi)%read_items_Some.
  destruct (array_filter_spec _ _ _ _ _ _ strict_false_tests He Hi)
    as (es' & Hrun1 & _ & He1 & Hi1 & _).
  destruct (array_filter_spec _ _ _ _ _ _ strict_false_tests He1 Hi1)
    as (es'' & Hrun2 & Hf2 & He2 & Hi2 & _).
  rewrite (filter_elems_all _ _ _ _ _ strict_false_tests Hi1 (unbroken_idem S))
    in Hf2.
  injection Hf2 as <-.
  exists (length h), (h ++ [Arr es']), (length (h ++ [Arr es'])),
    ((h ++ [Arr es']) ++ [Arr es']), es'.
  split; [exact Hrun1|]. split; [exact Hrun2|]. split.
  { eapply read_elems_mono; [|exact He1]. by apply prefix_app_r. }
  split; [exact He2|]. split.
  { apply read_items_Some. exists es'. split; [exact He2|].
    fold (unbroken (unbroken S)) in Hi2. by rewrite unbroken_idem in Hi2. }
  rewrite length_app. simpl. lia.
Qed.

Lemma usableInventory_twice_witness :
  read_items inventory_heap inventory_ref = Some inventory_items /\
  exists out1 h1 out2 h2 es',
    usableInventory inventory_ref inventory_heap = Ok out1 h1 /\
    usableInventory out1 h1 = Ok out2 h2 /\
    read_elems h2 out1 = Some es' /\ read_elems h2 out2 = Some es' /\
    read_items h2 out2 = Some (unbroken inventory_items) /\
    out1 <> out2.
Proof.
  split; [reflexivity|].
  apply (usableInventory_twice inventory_heap inventory_ref inventory_items).
  reflexivity.
Defined.

(** X5.  Upgrade and filter commute: on every inventory that reads as a
    sequence [S] of records, filtering first and upgrading the result
    ([usableInventory], then [upgradedInventoryConcise]) returns an array
    that reads as the same records as [upgradeAndFilterInventory], which
    upgrades first: the unbroken records of [S], each with the language's
    sum of its power and 5, which is its power plus 5 when every power lies
    between -2^53 and 2^53 - 5; filtering first never leaves a larger heap
    behind. *)
Theorem filter_first_reads_the_same h inv S :
  read_items h inv = Some S ->
  exists o1 h1 o2 h2 R,
    upgradeAndFilterInventory inv h = Ok o1 h1 /\
    (usable <- usableInventory inv ;; upgradedInventoryConcise usable) h
    = Ok o2 h2 /\
    read_items h1 o1 = Some R /\ read_items h2 o2 = Some R /\
    R = upgraded_items (unbroken S) /\
    (safe_to_upgrade S -> R = Contract.upgrade (unbroken S) 5) /\
    (length h2 <= length h1)%nat.
Proof.
  intros Hr. pose proof Hr as (es & He & Hi)%read_items_Some.
  (* upgrade first *)
  pose proof (array_map_spec _ _ _ _ _ spread_builds Hr) as Hmap1.
  destruct (array_map_outcome _ _ _ _ spread_builds Hr)
    as (mid & hm & esm & Rm & Hrunm & Hesm & HRm & -> & _).
  rewrite Hmap1 in Hrunm. injection Hrunm as Hmid Hhm.
  pose proof HRm as (esm' & Hesm' & Him)%read_items_Some.
  destruct (array_filter_spec _ _ _ _ _ _ not_broken_tests Hesm' Him)
    as (es1 & Hrun1 & _ & He1 & Hi1 & _).
  (* filter first *)
  destruct (array_filter_spec _ _ _ _ _ _ strict_false_tests He Hi)
    as (es2 & Hrun2 & _ & He2 & Hi2 & Hsub2).
  assert (Hr2 : read_items (h ++ [Arr es2]) (length h) = Some (unbroken S)).
  { apply read_items_Some. by exists es2. }
  pose proof (array_map_spec _ _ _ _ _ spread_builds Hr2) as Hmap2.
  destruct (array_map_outcome _ _ _ _ spread_builds Hr2)
    as (o2 & h2 & ? & R2 & Hrun3 & _ & HR2 & -> & _).
  exists (length hm), (hm ++ [Arr es1]), o2, h2,
    (upgraded_items (unbroken S)).
  split.
  { unfold upgradeAndFilterInventory.
    rewrite (bind_Ok _ _ _ _ _ Hmap1), Hmid, Hhm. exact Hrun1. }
  split.
  { unfold usableInventory, upgradedInventoryConcise.
    rewrite (bind_Ok _ _ _ _ _ Hrun2). exact Hrun3. }
  split.
  { apply read_items_Some. exists es1. split; [exact He1|].
    fold (unbroken (upgraded_items S)) in Hi1.
    by rewrite upgraded_items_unbroken_comm in Hi1. }
  split; [exact HR2|]. split; [reflexivity|]. split.
  { intros Hsafe. apply upgraded_items_safe.
    by apply safe_to_upgrade_unbroken. }
  rewrite Hmap2 in Hrun3. injection Hrun3 as _ <-. subst hm.
  rewrite !length_app, !length_fmap. simpl.
  pose proof (sublist_length _ _ (List_filter_sublist
                (fun it => negb (broken it)) S)) as Hle.
  fold (unbroken S) in Hle. lia.
Qed.

Lemma filter_first_reads_the_same_witness :
  read_items inventory_heap inventory_ref = Some inventory_items /\
  exists o1 h1 o2 h2 R,
    upgradeAndFilterInventory inventory_ref inventory_heap = Ok o1 h1 /\
    (usable <- usableInventory inventory_ref ;;
     upgradedInventoryConcise usable) inventory_heap
    = Ok o2 h2 /\
    read_items h1 o1 = Some R /\ read_items h2 o2 = Some R /\
    R = upgraded_items (unbroken inventory_items) /\
    (safe_to_upgrade inventory_items ->
     R = Contract.upgrade (unbroken inventory_items) 5) /\
    (length h2 <= length h1)%nat.
Proof.
  split; [reflexivity|].
  apply (filter_first_reads_the_same
           inventory_heap inventory_ref inventory_items).
  reflexivity.
Defined.

(** X7.  The filter drops something exactly when something is broken: on
    every inventory that reads as a sequence of records, the array
    [usableInventory] returns holds the same references as the inventory if
    and only if [hasBrokenItems] answers false; even then it is a new
    array, not the inventory itself. *)
Theorem filter_keeps_all_iff_none_broken h inv S :
  read_items h inv = Some S ->
  exists b out h' es es',
    hasBrokenItems inv h = Ok b h /\
    usableInventory inv h = Ok out h' /\
    read_elems h' inv = Some es /\ read_elems h' out = Some es' /\
    (b = false <-> es' = es) /\
    out <> inv.
Proof.
  intros Hr. pose proof Hr as (es & He & Hi)%read_items_Some.
  destruct (array_filter_spec _ _ _ _ _ _ strict_false_tests He Hi)
    as (es' & Hrun & Hf & He' & Hi' & _).
  exists (List.existsb broken S), (length h), (h ++ [Arr es']), es, es'.
  split; [exact (hasBrokenItems_spec _ _ _ Hr)|]. split; [exact Hrun|].
  split. { eapply read_elems_mono; [|exact He]. by apply prefix_app_r. }
  split; [exact He'|]. split.
  - rewrite existsb_broken_false. split.
    + intros Hall.
      rewrite (filter_elems_all _ _ _ _ _ strict_false_tests Hi Hall) in Hf.
      by injection Hf as <-.
    + intros ->. fold (unbroken S) in Hi'.
      pose proof (items_at_length _ _ _ Hi') as H1.
      pose proof (items_at_length _ _ _ Hi) as H2.
      assert (Hlen : length (unbroken S) = length S) by congruence.
      clear -Hlen. unfold unbroken in *.
      induction S as [|it S IH]; simpl in *; [done|].
      pose proof (sublist_length _ _ (List_filter_sublist
                    (fun it => negb (broken it)) S)) as Hle.
      destruct (broken it); simpl in *; [lia|].
      f_equal. apply IH. lia.
  - apply read_elems_Some, lookup_lt_Some in He. lia.
Qed.

Lemma filter_keeps_all_iff_none_broken_witness :
  read_items inventory_heap inventory_ref = Some inventory_items /\
  exists b out h' es es',
    hasBrokenItems inventory_ref inventory_heap = Ok b inventory_heap /\
    usableInventory inventory_ref inventory_heap = Ok out h' /\
    read_elems h' inventory_ref = Some es /\ read_elems h' out = Some es' /\
    (b = false <-> es' = es) /\
    out <> inventory_ref.
Proof.
  split; [reflexivity|].
  apply (filter_keeps_all_iff_none_broken
           inventory_heap inventory_ref inventory_items).
  reflexivity.
Defined.

(** X8.  Upgrading and then testing: on every inventory that reads as a
    sequence [S] of records, [allPowerful] run on the array
    [upgradedInventoryMap] returns answers true exactly when every record of
    [S] has power above 0; an inventory that passes [allPowerful] still
    passes once upgraded. *)
Theorem allPowerful_after_upgrade h inv S :
  read_items h inv = Some S ->
  exists out h' b,
    upgradedInventoryMap inv h = Ok out h' /\
    allPowerful out h' = Ok b h' /\
    (b = true <-> Forall (fun it => (0 < power it)%Z) S) /\
    (allPowerful inv h = Ok true h -> b = true).
Proof.
  intros Hr.
  destruct (array_map_outcome _ _ _ _ rebuild_builds Hr)
    as (out & h' & es' & R & Hrun & _ & HR & -> & _).
  exists out, h', (List.forallb (fun it => (5 <? power it)%Z)
                     (upgraded_items S)).
  split; [exact Hrun|]. split; [exact (allPowerful_spec _ _ _ HR)|].
  assert (Hiff : List.forallb (fun it => (5 <? power it)%Z)
                   (upgraded_items S) = true
                 <-> Forall (fun it => (0 < power it)%Z) S).
  { rewrite forallb_above. unfold upgraded_items.
    clear. induction S as [|it S IH]; simpl.
    - split; constructor.
    - rewrite !Forall_cons, IH. simpl.
      assert (Hp : (5 < number_add (power it) 5)%Z <-> (0 < power it)%Z).
      { split.
        - intros Hgt. destruct (Z_lt_le_dec 0 (power it)) as [|Hle]; [done|].
          pose proof (number_add_le (power it) 5 5
                        ltac:(split; vm_compute; discriminate) ltac:(lia)).
          lia.
        - intros Hpos.
          pose proof (number_add_ge (power it) 5 6
                        ltac:(split; vm_compute; discriminate) ltac:(lia)).
          lia. }
      rewrite Hp. done. }
  split; [exact Hiff|].
  rewrite (allPowerful_spec _ _ _ Hr). intros [= Hall].
  apply Hiff. apply forallb_above in Hall.
  eapply Forall_impl; [exact Hall|]. simpl. intros; lia.
Qed.

Lemma allPowerful_after_upgrade_witness :
  read_items inventory_heap inventory_ref = Some inventory_items /\
  exists out h' b,
    upgradedInventoryMap inventory_ref inventory_heap = Ok out h' /\
    allPowerful out h' = Ok b h' /\
    (b = true <-> Forall (fun it => (0 < power it)%Z) inventory_items) /\
    (allPowerful inventory_ref inventory_heap = Ok true inventory_heap ->
     b = true).
Proof.
  split; [reflexivity|].
  apply (allPowerful_after_upgrade inventory_heap inventory_ref inventory_items).
  reflexivity.
Defined.

Lemma rounded_fold_ge c S :
  (0 <= c)%Z -> Forall (fun it => (c <= power it)%Z) S ->
  forall acc j,
    (0 <= j)%Z -> (c * (j + Z.of_nat (length S)) <= 2 ^ 53)%Z ->
    (c * j <= acc)%Z ->
    (c * (j + Z.of_nat (length S))
     <= List.fold_left (fun s it => number_add s (power it)) S acc)%Z.
Proof.
  intros Hc Hall. induction Hall as [|it S Hit _ IH]; intros acc j Hj Hb Hacc.
  - simpl. rewrite Z.add_0_r. exact Hacc.
  - cbn [List.fold_left]. rewrite length_cons, Nat2Z.inj_succ in *.
    replace (j + Z.succ (Z.of_nat (length S)))%Z
      with ((j + 1) + Z.of_nat (length S))%Z in * by lia.
    apply IH; [lia | exact Hb |].
    apply number_add_ge; [|nia].
    assert (2 ^ 53 > 0)%Z by (vm_compute; reflexivity). nia.
Qed.

Lemma rounded_fold_le c S :
  (0 <= c)%Z -> Forall (fun it => (power it <= c)%Z) S ->
  forall acc j,
    (0 <= j)%Z -> (c * (j + Z.of_nat (length S)) <= 2 ^ 53)%Z ->
    (acc <= c * j)%Z ->
    (List.fold_left (fun s it => number_add s (power it)) S acc
     <= c * (j + Z.of_nat (length S)))%Z.
Proof.
  intros Hc Hall. induction Hall as [|it S Hit _ IH]; intros acc j Hj Hb Hacc.
  - simpl. rewrite Z.add_0_r. exact Hacc.
  - cbn [List.fold_left]. rewrite length_cons, Nat2Z.inj_succ in *.
    replace (j + Z.succ (Z.of_nat (length S)))%Z
      with ((j + 1) + Z.of_nat (length S))%Z in * by lia.
    apply IH; [lia | exact Hb |].
    apply number_add_le; [|nia].
    assert (2 ^ 53 > 0)%Z by (vm_compute; reflexivity). nia.
Qed.

(** X9.  What the tests say about the total: on every inventory that reads
    as a sequence [S] of records, fewer than 2^32 of them as in any array
    of the language, if [allPowerful] answers true then [totalPower] is at
    least 6 per record, and if [powerfulItem] finds nothing then
    [totalPower] is at most 10 per record; rounding in the sum does not
    break either bound. *)
Theorem totalPower_bounds h inv S :
  read_items h inv = Some S ->
  (Z.of_nat (length S) < 2 ^ 32)%Z ->
  exists t,
    totalPower inv h = Ok t h /\
    (allPowerful inv h = Ok true h -> (6 * Z.of_nat (length S) <= t)%Z) /\
    (powerfulItem inv h = Ok None h -> (t <= 10 * Z.of_nat (length S))%Z).
Proof.
  intros Hr Hlen. exists (rounded_total S).
  assert (H32 : (2 ^ 32 = 4294967296)%Z) by reflexivity.
  assert (H53 : (2 ^ 53 = 9007199254740992)%Z) by reflexivity.
  split; [exact (totalPower_spec _ _ _ Hr)|]. split.
  - rewrite (allPowerful_spec _ _ _ Hr). intros [= Hall].
    apply forallb_above in Hall. unfold rounded_total.
    apply (rounded_fold_ge 6 S ltac:(lia)) with (j := 0%Z); [|lia|lia|lia].
    eapply Forall_impl; [exact Hall|]. simpl. intros; lia.
  - intros Hnone.
    destruct (powerfulItem_spec _ _ _ Hr)
      as [(i & o & it & es & Hrun & _) | [_ Hall]]; [congruence|].
    unfold rounded_total.
    by apply (rounded_fold_le 10 S ltac:(lia)) with (j := 0%Z); [|lia|lia|lia].
Qed.

Lemma totalPower_bounds_witness :
  (read_items concat_heap 3
   = Some [mkItem "Sword" 10 false; mkItem "Shield" 5 false] /\
   (Z.of_nat (length [mkItem "Sword" 10 false; mkItem "Shield" 5 false])
    < 2 ^ 32)%Z) /\
  exists t,
    totalPower 3 concat_heap = Ok t concat_heap /\
    (allPowerful 3 concat_heap = Ok true concat_heap ->
     (6 * Z.of_nat (length [mkItem "Sword" 10 false; mkItem "Shield" 5 false])
      <= t)%Z) /\
    (powerfulItem 3 concat_heap = Ok None concat_heap ->
     (t <= 10 * Z.of_nat
             (length [mkItem "Sword" 10 false; mkItem "Shield" 5 false]))%Z).
Proof.
  split; [split; [reflexivity | vm_compute; reflexivity]|].
  apply (totalPower_bounds concat_heap 3%nat
           [mkItem "Sword" 10 false; mkItem "Shield" 5 false]);
    [reflexivity | vm_compute; reflexivity].
Defined.

(** The bounds hold where the sum rounds: two Swords of power 2^53 and a
    Ring of power 6 total 2^54 + 8, not the exact 2^54 + 6. *)
Example totalPower_bounds_beyond_2_53 :
  totalPower 2
    [ Obj (mkItem "Sword" (2 ^ 53) false); Obj (mkItem "Ring" 6 false);
      Arr [0; 0; 1]%nat ]
  = Ok (2 ^ 54 + 8)%Z
      [ Obj (mkItem "Sword" (2 ^ 53) false); Obj (mkItem "Ring" 6 false);
        Arr [0; 0; 1]%nat ].
Proof. reflexivity. Qed.

(** ** The weapons array *)

(** X10.  Push then pop is a round trip: whatever the array of weapons
    holds, pushing a name and popping returns that name and leaves the array
    as it was, the push itself having returned the old length plus one; so
    [droppedItem] is always the Dagger and [weapons] ends as it began. *)
Theorem push_then_pop_restores (a : list string) (x : string) :
  strings_pop (snd (strings_push x a)) = (Some x, a) /\
  fst (strings_push x a) = (1 + length a)%nat /\
  droppedItem a = (Some "Dagger", a).
Proof.
  unfold droppedItem, strings_pop, strings_push. simpl.
  rewrite !last_snoc, !removelast_last, length_app. simpl.
  repeat split. lia.
Qed.

(** ** Printing the inventory *)

Lemma forEach_elems_lines cb f es S h :
  (forall h o it out,
      read_item h o = Some it -> cb o out h = Ok (out ++ [f it]) h) ->
  items_at h es S ->
  forall out, forEach_elems cb es out h = Ok (out ++ List.map f S) h.
Proof.
  intros Hcb HF. induction HF as [|e it es S He HF IH]; intros out; simpl.
  - unfold ret. by rewrite app_nil_r.
  - rewrite (bind_Ok _ _ _ _ _ (Hcb _ _ _ out He)), IH.
    by rewrite <- app_assoc.
Qed.

(** X11.  [.forEach] prints one line per item and returns no array: on every
    inventory that reads as a sequence [S] of records, [logEachItem] leaves
    the heap as it was and the console as it was plus one line for each
    record of [S], in order; the line is the name, [: Power ], a numeral,
    [, ] and then [Broken] or [Not broken] as the record's flag says, and
    the numeral is the decimal numeral of the power when the power is
    within 2^53. *)
Theorem logEachItem_prints_each_item h inv S out :
  read_items h inv = Some S ->
  exists lines,
    logEachItem inv out h = Ok (out ++ lines) h /\
    length lines = length S /\
    (forall i it, S !! i = Some it ->
       exists numeral,
         lines !! i
         = Some (name it +:+ ": Power " +:+ numeral +:+ ", "
                   +:+ (if broken it then "Broken" else "Not broken")) /\
         ((- 2 ^ 53 <= power it <= 2 ^ 53)%Z ->
          numeral = number_to_string (power it))).
Proof.
  intros (es & He & Hi)%read_items_Some.
  exists (List.map item_line S). split.
  { unfold logEachItem, array_forEach.
    rewrite (bind_Ok _ _ _ _ _ (elements_Ok _ _ _ He)).
    apply forEach_elems_lines; [|exact Hi].
    intros h0 o it out0 Hr.
    by rewrite !(bind_Ok _ _ _ _ _ (prop_Ok _ _ _ _ Hr)). }
  split; [apply length_map|].
  intros i it HS. exists (number_to_string (power it)). split; [|done].
  rewrite <- fmap_map, list_lookup_fmap, HS. done.
Qed.

Lemma logEachItem_prints_each_item_witness :
  read_items inventory_heap inventory_ref = Some inventory_items /\
  exists lines,
    logEachItem inventory_ref ["Original inventory"] inventory_heap
    = Ok (["Original inventory"] ++ lines) inventory_heap /\
    length lines = length inventory_items /\
    (forall i it, inventory_items !! i = Some it ->
       exists numeral,
         lines !! i
         = Some (name it +:+ ": Power " +:+ numeral +:+ ", "
                   +:+ (if broken it then "Broken" else "Not broken")) /\
         ((- 2 ^ 53 <= power it <= 2 ^ 53)%Z ->
          numeral = number_to_string (power it))).
Proof.
  split; [reflexivity|].
  apply (logEachItem_prints_each_item inventory_heap inventory_ref
           inventory_items ["Original inventory"]).
  reflexivity.
Defined.
